(** * hotload: the connection hot-swap engine of [driver.go]

    A shallow embedding of the Go package [hotload] (file [driver.go]):
    the two process-wide registries, the per-address monitor [chanGroup]
    with its swap protocol, the option merging helper and the dispatcher
    [hdriver.Open].

    Conventions of the embedding.
    - Every exported entry point runs under a mutex in the Go code; here
      each of them is one atomic state transition.  The one place where
      a mutex decides what a single call does, the [Close] that
      [resetConnections] makes while [valueChanged] holds the mutex of
      the monitor, is modelled by [valueChanged_mu].
    - Everything the package consumes from outside (the strategies, the
      underlying drivers and their connections) acts on an abstract
      [World]; the [net/url] functions are taken as an interface [NetURL].
    - Calls that leave the package are recorded, newest first, in a
      [trace] of [event]s, so that "is invoked", "is logged" and "exactly
      once" can be stated.
    - A Go [panic] is the [Panic] outcome. *)

From stdpp Require Import base option list gmap strings fin_maps sorting.
From Stdlib Require Import Ascii.

(** ** Errors *)

(** The three sentinel errors of the package, the errors built with
    [fmt.Errorf] inside the package, the errors of [net/url], and the
    errors that strategies, drivers and connections hand back.  Go
    compares errors by identity; the constructors keep the origins apart,
    and what comes from outside is known by its message and enters the
    package as [UrlError] or [ExternalError]. *)
Inductive error : Type :=
| ErrUnsupportedStrategy
| ErrMalformedConnectionString
| ErrUnknownDriver
| Errorf (msg : string)
| UrlError (msg : string)
| ExternalError (msg : string).

Definition error_string (e : error) : string :=
  match e with
  | ErrUnsupportedStrategy => "unsupported hotload strategy"
  | ErrMalformedConnectionString => "malformed hotload connection string"
  | ErrUnknownDriver => "target driver is not registered with hotload"
  | Errorf m => m
  | UrlError m => m
  | ExternalError m => m
  end.

#[global] Instance error_eq_dec : EqDecision error.
Proof. solve_decision. Defined.

(** Outcome of a call that may panic. *)
Inductive outcome (A : Type) : Type :=
| Done (a : A)
| Panic (msg : string).
Arguments Done {A} a.
Arguments Panic {A} msg.

(** Outcome of a call that may wait for a mutex: it returns, or it waits
    for ever. *)
Inductive progress (A : Type) : Type :=
| Returned (a : A)
| Blocked.
Arguments Returned {A} a.
Arguments Blocked {A}.

(** ** The part of [net/url] the package uses *)

(** [url.Values] is [map[string][]string]. *)
Abbreviation Values := (gmap string (list string)).

Record URL : Type := mkURL {
  Scheme : string;
  Opaque : string;
  User : string;
  Host : string;
  Path : string;
  RawQuery : string;
  Fragment : string
}.

Definition set_RawQuery (q : string) (u : URL) : URL :=
  mkURL (Scheme u) (Opaque u) (User u) (Host u) (Path u) q (Fragment u).

(** The library functions, with the library's error reduced to its
    message.  [url_ParseQuery] returns the pairs it could parse together
    with the first error, as the Go function does. *)
Record NetURL : Type := mkNetURL {
  url_Parse : string → URL + string;
  url_ParseRequestURI : string → URL + string;
  url_ParseQuery : string → Values * option string;
  Values_Encode : Values → string;
  URL_String : URL → string
}.

(** [Values.Set]: the key is bound to the one-element slice. *)
Definition Values_Set (k v : string) (vs : Values) : Values := <[k := [v]]> vs.

(** [URL.Query]: [ParseQuery] on the raw query, the error dropped. *)
Definition URL_Query (net : NetURL) (u : URL) : Values :=
  fst (url_ParseQuery net (RawQuery u)).

(** ** Handles *)

(** An underlying [driver.Conn], a receive-only channel and a context are
    known to the package only by identity. *)
Abbreviation Conn := nat (only parsing).
Abbreviation Chan := nat (only parsing).
Abbreviation Ctx := nat (only parsing).

(** What [Open] hands to its caller as [driver.Conn]: the raw value of the
    underlying driver, or a pointer to a [managedConn]. *)
Inductive connRef : Type :=
| RawConn (c : Conn)
| Managed (p : nat).

#[global] Instance connRef_eq_dec : EqDecision connRef.
Proof. solve_decision. Defined.

(** Modelled from the spec: the type [managedConn] and its constructor
    [newManagedConn], which are not in [driver.go].  The wrapper holds the
    underlying connection, the scope it was bound to and the invalidation
    flag; the removal callback it is given is always the [remove] method
    of the monitor that created it. *)
Record managedConn : Type := mkManagedConn {
  mc_ctx : Ctx;
  mc_conn : Conn;
  mc_reset : bool
}.

Definition newManagedConn (ctx : Ctx) (conn : Conn) : managedConn :=
  mkManagedConn ctx conn false.

(** ** Observable events *)

Inductive event : Type :=
| EWatch (name path : string) (query : Values)
| EDriverOpen (dsn : string)
| EReset (p : nat) (v : bool)
| EClose (p : nat)
| ECancel (c : Ctx)
| ELog (msg : string)
| EGo (name : string).

#[global] Instance event_eq_dec : EqDecision event.
Proof. solve_decision. Defined.

(** ** The package, over an abstract outside world *)

Section Hotload.
Context {World : Type}.
Context (net : NetURL).
(** [Close] of an underlying [driver.Conn]. *)
Context (conn_Close : Conn → World → option string * World).

(** *** Capabilities consumed *)

(** [Strategy.Watch(ctx, pth, options)]: the value, the channel and the
    error of the Go triple.  The context argument is always the
    dispatcher's own context and is left out. *)
Record Strategy : Type := mkStrategy {
  Watch : string → Values → World → (string * Chan * option string) * World
}.

(** [driver.Driver]: [Open(name)] returns a connection (left), or an
    error together with whatever it put in the connection result
    (right); the Go code hands back both as they come. *)
Record Driver : Type := mkDriver {
  drv_Open : string → World → (Conn + option Conn * string) * World
}.

(** *** Registries *)

(** [driverInstance]; a [nil] option map and an empty one are both the
    empty map, the code only ever asks for its length and ranges over
    it. *)
Record driverInstance : Type := mkDriverInstance {
  driver : Driver;
  options : gmap string string
}.

(** [driverOption] is a Go function type, a [func] of one pointer to a
    [driverInstance]: a value of it is [nil] ([None]) or a function,
    which updates the instance it is given. *)
Definition driverOption : Type := option (driverInstance → driverInstance).

(** [WithDriverOptions]: the closure it returns is never [nil]. *)
Definition WithDriverOptions (opts : gmap string string) : driverOption :=
  Some (λ d, mkDriverInstance (driver d)
               (map_fold (λ k v acc, <[k := v]> acc) (options d) opts)).

(** *** Monitors *)

Record chanGroup : Type := mkChanGroup {
  value : string;
  values : Chan;
  parentCtx : Ctx;
  ctx : Ctx;
  sqlDriver : driverInstance;
  forceKill : bool;
  conns : list nat
}.

Definition set_value (v : string) (cg : chanGroup) : chanGroup :=
  mkChanGroup v (values cg) (parentCtx cg) (ctx cg) (sqlDriver cg)
    (forceKill cg) (conns cg).
Definition set_ctx (c : Ctx) (cg : chanGroup) : chanGroup :=
  mkChanGroup (value cg) (values cg) (parentCtx cg) c (sqlDriver cg)
    (forceKill cg) (conns cg).
Definition set_forceKill (b : bool) (cg : chanGroup) : chanGroup :=
  mkChanGroup (value cg) (values cg) (parentCtx cg) (ctx cg) (sqlDriver cg)
    b (conns cg).
Definition set_conns (l : list nat) (cg : chanGroup) : chanGroup :=
  mkChanGroup (value cg) (values cg) (parentCtx cg) (ctx cg) (sqlDriver cg)
    (forceKill cg) l.

(** *** What the methods of a monitor act on besides the monitor

    The allocated [managedConn] objects (a pointer is an index), the
    contexts created so far and those cancelled, the outside world and
    the trace. *)
Record runtime : Type := mkRuntime {
  mconns : list managedConn;
  ctxNext : Ctx;
  cancelled : list Ctx;
  world : World;
  trace : list event
}.

Definition emit (e : event) (r : runtime) : runtime :=
  mkRuntime (mconns r) (ctxNext r) (cancelled r) (world r) (e :: trace r).
Definition set_world (w : World) (r : runtime) : runtime :=
  mkRuntime (mconns r) (ctxNext r) (cancelled r) w (trace r).
Definition set_mconns (l : list managedConn) (r : runtime) : runtime :=
  mkRuntime l (ctxNext r) (cancelled r) (world r) (trace r).

(** The logger: a sink. *)
Definition log (msg : string) (r : runtime) : runtime := emit (ELog msg) r.

(** Calling the [cancel] function that came with context [c]. *)
Definition cancel (c : Ctx) (r : runtime) : runtime :=
  emit (ECancel c)
    (mkRuntime (mconns r) (ctxNext r) (c :: cancelled r) (world r) (trace r)).

(** [context.WithCancel(parent)]: a fresh context. *)
Definition WithCancel (parent : Ctx) (r : runtime) : Ctx * runtime :=
  (ctxNext r,
   mkRuntime (mconns r) (S (ctxNext r)) (cancelled r) (world r) (trace r)).

(** Modelled from the spec: [managedConn.Reset], which is not in
    [driver.go]; it sets the invalidation flag of the wrapper. *)
Definition mc_Reset (p : nat) (v : bool) (r : runtime) : runtime :=
  emit (EReset p v)
    (set_mconns
       (alter (λ mc, mkManagedConn (mc_ctx mc) (mc_conn mc) v) p (mconns r)) r).

(** Modelled from the spec: the half of [managedConn.Close] (which is
    not in [driver.go]) that acts on the runtime: the call is recorded,
    the underlying connection is closed and the error of that close is
    the result.  The other half, the removal of the wrapper from its
    monitor through the [remove] callback, needs the mutex of the
    monitor; [managedConn_Close] below is the whole method. *)
Definition mc_Close (p : nat) (r : runtime) : option error * runtime :=
  let r1 := emit (EClose p) r in
  match mconns r !! p with
  | Some mc =>
      let '(e, w) := conn_Close (mc_conn mc) (world r) in
      (ExternalError <$> e, set_world w r1)
  | None => (None, r1)
  end.

(** [resetConnections]: the loop over [cg.conns], then the fresh empty
    slice.  Here, in [valueChanged] and in [run], every call is taken to
    return, a [Close] with its underlying close done; this is the swap
    once it has completed.  Whether it completes is a matter of the
    mutex: see [valueChanged_mu]. *)
Definition resetConnections_body (fk : bool) (r : runtime) (c : nat) : runtime :=
  let r1 := mc_Reset c true r in
  if fk then snd (mc_Close c r1) else r1.

Definition resetConnections (cg : chanGroup) (r : runtime) : chanGroup * runtime :=
  let r' := foldl (resetConnections_body (forceKill cg)) r (conns cg) in
  (set_conns [] cg, r').

(** [valueChanged]. *)
Definition valueChanged (v : string) (cg : chanGroup) (r : runtime)
  : chanGroup * runtime :=
  let r1 := cancel (ctx cg) r in
  let '(c, r2) := WithCancel (parentCtx cg) r1 in
  let cg1 := set_ctx c cg in
  let '(cg2, r3) := resetConnections cg1 r2 in
  (set_value v cg2, r3).

(** [mergeConnectionStringOptions], with Go's pair of results. *)
Definition mergeConnectionStringOptions (dsn : string) (opts : gmap string string)
  : string * option error :=
  if decide (size opts = 0) then (dsn, None) else
  match url_ParseRequestURI net dsn with
  | inr e =>
      (EmptyString,
       Some (Errorf ("unable to parse connection string when specifying extra driver options: " +:+ e)))
  | inl u =>
      match url_ParseQuery net (RawQuery u) with
      | (_, Some e) =>
          (EmptyString,
           Some (Errorf ("unable to parse query options in connection string when specifying extra driver options: " +:+ e)))
      | (vals, None) =>
          let vals' := map_fold (λ k v acc, Values_Set k v acc) vals opts in
          (URL_String net (set_RawQuery (Values_Encode net vals') u), None)
      end
  end.

(** [chanGroup.Open]. *)
Definition cg_Open (cg : chanGroup) (r : runtime)
  : (option connRef * option error) * chanGroup * runtime :=
  match mergeConnectionStringOptions (value cg) (options (sqlDriver cg)) with
  | (_, Some err) => ((None, Some err), cg, r)
  | (dsn, None) =>
      let '(res, w) := drv_Open (driver (sqlDriver cg)) dsn (world r) in
      let r1 := emit (EDriverOpen dsn) (set_world w r) in
      match res with
      | inr (conn, err) => ((RawConn <$> conn, Some (ExternalError err)), cg, r1)
      | inl conn =>
          let p := List.length (mconns r1) in
          let r2 := set_mconns (mconns r1 ++ [newManagedConn (ctx cg) conn]) r1 in
          ((Some (Managed p), None), set_conns (conns cg ++ [p]) cg, r2)
      end
  end.

(** [chanGroup.remove]: the first slot holding the pointer is cut out. *)
Fixpoint remove_first (p : nat) (l : list nat) : list nat :=
  match l with
  | [] => []
  | c :: l' => if decide (c = p) then l' else c :: remove_first p l'
  end.

Definition remove (conn : nat) (cg : chanGroup) : chanGroup :=
  set_conns (remove_first conn (conns cg)) cg.

(** *** The swap and the mutex of the monitor

    [cg.mu] is a [sync.RWMutex]: a [Lock] on a mutex that is held waits
    until it is released, also when the one who holds it is the caller's
    own goroutine.  [valueChanged] holds [cg.mu] from its first line to
    its return, and all that [resetConnections] calls runs inside. *)

(** [chanGroup.remove] from its first line, [cg.mu.Lock()]; [held]: the
    goroutine that calls holds [cg.mu] already, so the [Lock] never
    returns. *)
Definition remove_mu (held : bool) (conn : nat) (cg : chanGroup)
  : progress chanGroup :=
  if held then Blocked else Returned (remove conn cg).

(** Modelled from the spec: [managedConn.Close] (section 4.6), which is
    not in [driver.go]: the wrapper removes itself from the outstanding
    set of its monitor and closes the underlying connection.  Its handle
    on the monitor is the callback [chanGroup.Open] gave it at line 268,
    [cg.remove]. *)
Definition managedConn_Close (held : bool) (p : nat) (cg : chanGroup)
    (r : runtime) : progress (option error * chanGroup * runtime) :=
  match remove_mu held p cg with
  | Blocked => Blocked
  | Returned cg' => let '(e, r') := mc_Close p r in Returned (e, cg', r')
  end.

(** The loop of [resetConnections], run by [valueChanged], which holds
    the mutex.  The branch after a [Close] that returned is never taken
    there. *)
Fixpoint resetConnections_mu (fk : bool) (cg : chanGroup) (l : list nat)
    (r : runtime) : progress runtime :=
  match l with
  | [] => Returned r
  | c :: l' =>
      let r1 := mc_Reset c true r in
      if fk then
        match managedConn_Close true c cg r1 with
        | Blocked => Blocked
        | Returned (_, _, r2) => resetConnections_mu fk cg l' r2
        end
      else resetConnections_mu fk cg l' r1
  end.

(** [valueChanged], with [cg.mu] held from [cg.mu.Lock()] on. *)
Definition valueChanged_mu (v : string) (cg : chanGroup) (r : runtime)
  : progress (chanGroup * runtime) :=
  let r1 := cancel (ctx cg) r in
  let '(c, r2) := WithCancel (parentCtx cg) r1 in
  let cg1 := set_ctx c cg in
  match resetConnections_mu (forceKill cg1) cg1 (conns cg1) r2 with
  | Blocked => Blocked
  | Returned r3 => Returned (set_value v (set_conns [] cg1), r3)
  end.

(** [chanGroup.parseValues]; [v[0]] panics on an empty slice. *)
Definition parseValues (vs : Values) (cg : chanGroup) (r : runtime)
  : outcome chanGroup * runtime :=
  let r1 := log "parsing values" r in
  match vs !! "forceKill" with
  | Some v =>
      match v with
      | [] => (Panic "index out of range", r1)
      | firstValue :: _ =>
          (Done (set_forceKill (String.eqb firstValue "true") cg),
           log "forceKill set to true" r1)
      end
  | None => (Done cg, r1)
  end.

(** [chanGroup.run]: what the [select] received, one turn of the loop
    ([true]: the loop goes on), and the loop over the events that reach
    it. *)
Inductive received : Type :=
| ParentDone
| Recv (v : string).

Definition run_step (ev : received) (cg : chanGroup) (r : runtime)
  : bool * chanGroup * runtime :=
  match ev with
  | ParentDone =>
      (false, cg, log "cancelling chanGroup context" (cancel (ctx cg) r))
  | Recv v =>
      if decide (v = value cg) then (true, cg, r)
      else
        let '(cg', r') := valueChanged v cg r in
        (true, cg', log "connection information changed" r')
  end.

Fixpoint run (evs : list received) (cg : chanGroup) (r : runtime)
  : chanGroup * runtime :=
  match evs with
  | [] => (cg, r)
  | ev :: evs' =>
      let '(go_on, cg', r') := run_step ev cg r in
      if go_on then run evs' cg' r' else (cg', r')
  end.

(** *** The process: registries, dispatcher, runtime *)

Record state : Type := mkState {
  sqlDrivers : gmap string driverInstance;
  strategies : gmap string Strategy;
  hctx : Ctx;
  cgroup : gmap string chanGroup;
  rt : runtime
}.

Definition set_sqlDrivers (m : gmap string driverInstance) (s : state) : state :=
  mkState m (strategies s) (hctx s) (cgroup s) (rt s).
Definition set_strategies (m : gmap string Strategy) (s : state) : state :=
  mkState (sqlDrivers s) m (hctx s) (cgroup s) (rt s).
Definition set_cgroup (m : gmap string chanGroup) (s : state) : state :=
  mkState (sqlDrivers s) (strategies s) (hctx s) m (rt s).
Definition set_rt (r : runtime) (s : state) : state :=
  mkState (sqlDrivers s) (strategies s) (hctx s) (cgroup s) r.

(** The loop [for _, opt := range options { opt(di) }] of
    [RegisterSQLDriver]: the call of a [nil] function is a run-time
    panic. *)
Fixpoint apply_options (di : driverInstance) (opts : list driverOption)
  : outcome driverInstance :=
  match opts with
  | [] => Done di
  | None :: _ =>
      Panic "runtime error: invalid memory address or nil pointer dereference"
  | Some opt :: opts' => apply_options (opt di) opts'
  end.

(** [RegisterSQLDriver]; a [nil] driver is [None].  The options are
    applied after the two guards and before the entry is stored. *)
Definition RegisterSQLDriver (name : string) (drv : option Driver)
    (opts : list driverOption) (s : state) : outcome state :=
  match drv with
  | None => Panic "hotload: Register driver is nil"
  | Some d =>
      match sqlDrivers s !! name with
      | Some _ => Panic ("hotload: Register called twice for driver " +:+ name)
      | None =>
          match apply_options (mkDriverInstance d ∅) opts with
          | Panic m => Panic m
          | Done di => Done (set_sqlDrivers (<[name := di]> (sqlDrivers s)) s)
          end
      end
  end.

(** [unregisterAll], for tests. *)
Definition unregisterAll (s : state) : state :=
  set_strategies ∅ (set_sqlDrivers ∅ s).

(** [RegisterStrategy]; a [nil] strategy is [None]. *)
Definition RegisterStrategy (name : string) (strategy : option Strategy)
    (s : state) : outcome state :=
  match strategy with
  | None => Panic "hotload: RegisterStrategy strategy is nil"
  | Some st =>
      match strategies s !! name with
      | Some _ =>
          Panic ("hotload: RegisterStrategy called twice for strategy " +:+ name)
      | None => Done (set_strategies (<[name := st]> (strategies s)) s)
      end
  end.

(** The tail of [hdriver.Open]: [cgroup.Open()] on the monitor stored
    under [name]. *)
Definition monitor_Open (name : string) (cg : chanGroup) (s : state)
  : outcome (option connRef * option error) * state :=
  let '(res, cg', r') := cg_Open cg (rt s) in
  (Done res, set_rt r' (set_cgroup (<[name := cg']> (cgroup s)) s)).

(** [hdriver.Open]. *)
Definition hdriver_Open (name : string) (s : state)
  : outcome (option connRef * option error) * state :=
  match url_Parse net name with
  | inr e => (Done (None, Some (UrlError e)), s)
  | inl uri =>
      match cgroup s !! name with
      | Some cg => monitor_Open name cg s
      | None =>
          match strategies s !! Scheme uri with
          | None => (Done (None, Some ErrUnsupportedStrategy), s)
          | Some strategy =>
              match sqlDrivers s !! Host uri with
              | None => (Done (None, Some ErrUnknownDriver), s)
              | Some sqlDrv =>
                  let queryParams := URL_Query net uri in
                  let '((v, vs, err), w) :=
                    Watch strategy (Path uri) queryParams (world (rt s)) in
                  let r1 :=
                    emit (EWatch name (Path uri) queryParams) (set_world w (rt s)) in
                  match err with
                  | Some e => (Done (None, Some (ExternalError e)), set_rt r1 s)
                  | None =>
                      let '(c, r2) := WithCancel (hctx s) r1 in
                      let cg := mkChanGroup v vs (hctx s) c sqlDrv false [] in
                      match parseValues queryParams cg r2 with
                      | (Panic m, r3) => (Panic m, set_rt r3 s)
                      | (Done cg', r3) =>
                          let r4 := emit (EGo name) r3 in
                          monitor_Open name cg'
                            (set_rt r4 (set_cgroup (<[name := cg']> (cgroup s)) s))
                      end
                  end
              end
          end
      end
  end.

(** *** Runs of the process

    What can happen to the process through the package: the two
    registrations (a panic leaves the registries as they were), an
    [Open] on the dispatcher, and an update reaching the loop of the
    monitor registered under an address, with its swap completed. *)
Inductive op : Type :=
| OpRegisterSQLDriver (name : string) (drv : option Driver) (opts : list driverOption)
| OpRegisterStrategy (name : string) (strategy : option Strategy)
| OpOpen (name : string)
| OpUpdate (name : string) (v : string).

Definition exec (o : op) (s : state) : state :=
  match o with
  | OpRegisterSQLDriver name drv opts =>
      match RegisterSQLDriver name drv opts s with
      | Done s' => s'
      | Panic _ => s
      end
  | OpRegisterStrategy name strategy =>
      match RegisterStrategy name strategy s with
      | Done s' => s'
      | Panic _ => s
      end
  | OpOpen name => snd (hdriver_Open name s)
  | OpUpdate name v =>
      match cgroup s !! name with
      | Some cg =>
          let '(_, cg', r') := run_step (Recv v) cg (rt s) in
          set_rt r' (set_cgroup (<[name := cg']> (cgroup s)) s)
      | None => s
      end
  end.

Definition exec_all (ops : list op) (s : state) : state :=
  foldl (λ s o, exec o s) s ops.

(** The process as [init] leaves it: empty registries, a dispatcher
    with the background context [0] and no monitor. *)
Definition init_state (w : World) : state :=
  mkState ∅ ∅ 0 ∅ (mkRuntime [] 1 [] w []).

(** How often an event of some kind occurs in a trace. *)
Fixpoint count_events (f : event → bool) (tr : list event) : nat :=
  match tr with
  | [] => 0
  | e :: tr' => (if f e then 1 else 0) + count_events f tr'
  end.

(** Calls of [Watch] for an address, and starts of a monitor loop for
    it. *)
Definition is_watch (name : string) (e : event) : bool :=
  match e with
  | EWatch n _ _ => bool_decide (n = name)
  | _ => false
  end.

Definition is_go (name : string) (e : event) : bool :=
  match e with
  | EGo n => bool_decide (n = name)
  | _ => false
  end.

Definition watch_calls (name : string) (tr : list event) : nat :=
  count_events (is_watch name) tr.

Definition monitors_started (name : string) (tr : list event) : nat :=
  count_events (is_go name) tr.

(** [n] calls of [chanGroup.Open] in a row. *)
Fixpoint open_n (n : nat) (cg : chanGroup) (r : runtime) : chanGroup * runtime :=
  match n with
  | 0 => (cg, r)
  | S n' => let '(_, cg1, r1) := cg_Open cg r in open_n n' cg1 r1
  end.

(** A wrapper once its flag is set. *)
Definition invalidate (mc : managedConn) : managedConn :=
  mkManagedConn (mc_ctx mc) (mc_conn mc) true.

(** The events of one turn of the loop of [resetConnections], oldest
    first. *)
Definition reset_events (fk : bool) (p : nat) : list event :=
  if fk then [EReset p true; EClose p] else [EReset p true].

(** What one [Open] on a monitor does: nothing at all when the merge
    fails; otherwise one call of the driver with the merged string, and
    a new wrapper exactly when that call succeeds. *)
Inductive Open_spec (cg : chanGroup) (r : runtime)
  : (option connRef * option error) * chanGroup * runtime → Prop :=
| Open_merge_failed junk msg :
    mergeConnectionStringOptions (value cg) (options (sqlDriver cg))
      = (junk, Some (Errorf msg)) →
    Open_spec cg r ((None, Some (Errorf msg)), cg, r)
| Open_driver_failed dsn conn err w :
    mergeConnectionStringOptions (value cg) (options (sqlDriver cg))
      = (dsn, None) →
    drv_Open (driver (sqlDriver cg)) dsn (world r) = (inr (conn, err), w) →
    Open_spec cg r
      ((RawConn <$> conn, Some (ExternalError err)), cg,
       emit (EDriverOpen dsn) (set_world w r))
| Open_connected dsn conn w :
    mergeConnectionStringOptions (value cg) (options (sqlDriver cg))
      = (dsn, None) →
    drv_Open (driver (sqlDriver cg)) dsn (world r) = (inl conn, w) →
    Open_spec cg r
      ((Some (Managed (length (mconns r))), None),
       set_conns (conns cg ++ [length (mconns r)]) cg,
       set_mconns (mconns r ++ [newManagedConn (ctx cg) conn])
         (emit (EDriverOpen dsn) (set_world w r))).

(** An event that is a driver call with the merge of [v] and [opts]. *)
Definition opens_with (v : string) (opts : gmap string string) (e : event) : Prop :=
  ∃ dsn, e = EDriverOpen dsn
         ∧ mergeConnectionStringOptions v opts = (dsn, None).

(** A connection string that [mergeConnectionStringOptions] cannot take
    apart: [url.ParseRequestURI] rejects it, or [url.ParseQuery] rejects
    its query. *)
Definition unmergeable (dsn : string) : bool :=
  match url_ParseRequestURI net dsn with
  | inr _ => true
  | inl u =>
      match (url_ParseQuery net (RawQuery u)).2 with
      | Some _ => true
      | None => false
      end
  end.

(** A connection string of URI shape: [url.ParseRequestURI] accepts it. *)
Definition URI_shaped (dsn : string) : bool :=
  match url_ParseRequestURI net dsn with
  | inl _ => true
  | inr _ => false
  end.

(** The connection strings the drivers were called with, newest
    first. *)
Fixpoint driver_opens (tr : list event) : list string :=
  match tr with
  | [] => []
  | EDriverOpen dsn :: tr' => dsn :: driver_opens tr'
  | _ :: tr' => driver_opens tr'
  end.

(** What the query parameters of an address make of a [forceKill] that
    was [b]. *)
Definition forceKill_of (q : Values) (b : bool) : bool :=
  match q !! "forceKill" with
  | Some (firstValue :: _) => String.eqb firstValue "true"
  | _ => b
  end.

(** The monitor [hdriver.Open] builds before it parses the query. *)
Definition fresh_monitor (s : state) (v : string) (vs : Chan)
    (sqlDrv : driverInstance) : chanGroup :=
  mkChanGroup v vs (hctx s) (ctxNext (rt s)) sqlDrv false [].

(** The runtime once [Watch] has returned and the scope of the new
    monitor is derived. *)
Definition after_watch (s : state) (name : string) (uri : URL) (w : World)
  : runtime :=
  (WithCancel (hctx s)
     (emit (EWatch name (Path uri) (URL_Query net uri)) (set_world w (rt s)))).2.

(** The ways through [hdriver.Open]. *)
Inductive Dispatch_spec (name : string) (s : state)
  : outcome (option connRef * option error) * state → Prop :=
| Dispatch_malformed e :
    url_Parse net name = inr e →
    Dispatch_spec name s (Done (None, Some (UrlError e)), s)
| Dispatch_reuse uri cg res cg' r' :
    url_Parse net name = inl uri →
    cgroup s !! name = Some cg →
    cg_Open cg (rt s) = (res, cg', r') →
    Dispatch_spec name s
      (Done res, set_rt r' (set_cgroup (<[name := cg']> (cgroup s)) s))
| Dispatch_unsupported uri :
    url_Parse net name = inl uri →
    cgroup s !! name = None →
    strategies s !! Scheme uri = None →
    Dispatch_spec name s (Done (None, Some ErrUnsupportedStrategy), s)
| Dispatch_unknown uri strategy :
    url_Parse net name = inl uri →
    cgroup s !! name = None →
    strategies s !! Scheme uri = Some strategy →
    sqlDrivers s !! Host uri = None →
    Dispatch_spec name s (Done (None, Some ErrUnknownDriver), s)
| Dispatch_watch_failed uri strategy sqlDrv v vs e w :
    url_Parse net name = inl uri →
    cgroup s !! name = None →
    strategies s !! Scheme uri = Some strategy →
    sqlDrivers s !! Host uri = Some sqlDrv →
    Watch strategy (Path uri) (URL_Query net uri) (world (rt s))
      = ((v, vs, Some e), w) →
    Dispatch_spec name s
      (Done (None, Some (ExternalError e)),
       set_rt (emit (EWatch name (Path uri) (URL_Query net uri))
                 (set_world w (rt s))) s)
| Dispatch_panic uri strategy sqlDrv v vs w m r3 :
    url_Parse net name = inl uri →
    cgroup s !! name = None →
    strategies s !! Scheme uri = Some strategy →
    sqlDrivers s !! Host uri = Some sqlDrv →
    Watch strategy (Path uri) (URL_Query net uri) (world (rt s))
      = ((v, vs, None), w) →
    parseValues (URL_Query net uri) (fresh_monitor s v vs sqlDrv)
      (after_watch s name uri w) = (Panic m, r3) →
    Dispatch_spec name s (Panic m, set_rt r3 s)
| Dispatch_create uri strategy sqlDrv v vs w cg0 r3 res cg' r' :
    url_Parse net name = inl uri →
    cgroup s !! name = None →
    strategies s !! Scheme uri = Some strategy →
    sqlDrivers s !! Host uri = Some sqlDrv →
    Watch strategy (Path uri) (URL_Query net uri) (world (rt s))
      = ((v, vs, None), w) →
    parseValues (URL_Query net uri) (fresh_monitor s v vs sqlDrv)
      (after_watch s name uri w) = (Done cg0, r3) →
    cg_Open cg0 (emit (EGo name) r3) = (res, cg', r') →
    Dispatch_spec name s
      (Done res,
       set_rt r' (set_cgroup (<[name := cg']> (<[name := cg0]> (cgroup s))) s)).

(** A line of the log. *)
Definition is_log (e : event) : bool :=
  match e with
  | ELog _ => true
  | _ => false
  end.

(** Events that are neither a call of [Watch] nor the start of a loop. *)
Definition quiet (e : event) : bool :=
  match e with
  | EWatch _ _ _ | EGo _ => false
  | _ => true
  end.

(** The monitor table and the trace agree: a loop was started once for
    every address in the table and never for any other. *)
Definition table_matches_trace (s : state) : Prop :=
  ∀ name, monitors_started name (trace (rt s))
          = match cgroup s !! name with Some _ => 1 | None => 0 end.

(** [cg'] is the monitor [cg] after an [Open]: everything as it was,
    except that a connection may have been appended. *)
Definition same_monitor (cg cg' : chanGroup) : Prop :=
  value cg' = value cg ∧ values cg' = values cg
  ∧ parentCtx cg' = parentCtx cg ∧ ctx cg' = ctx cg
  ∧ sqlDriver cg' = sqlDriver cg ∧ forceKill cg' = forceKill cg
  ∧ (conns cg' = conns cg ∨ ∃ p, conns cg' = conns cg ++ [p]).

(** An error made by [mergeConnectionStringOptions]. *)
Definition isOptionMergeFailure (e : option error) : bool :=
  match e with
  | Some (Errorf _) => true
  | _ => false
  end.
(** *** The rest of the package: listings and invariants *)

(** [sort.Strings]: the names in increasing byte order.  The result of a
    sort does not depend on how it is computed; insertion is used here. *)
Fixpoint insert_String (k : string) (l : list string) : list string :=
  match l with
  | [] => [k]
  | x :: l' => if String.leb k x then k :: x :: l' else x :: insert_String k l'
  end.

Definition sort_Strings (l : list string) : list string :=
  foldr insert_String [] l.

(** [SQLDrivers] and [Strategies]: the keys of the registry, collected by
    a range over the map, then sorted. *)
Definition SQLDrivers (s : state) : list string :=
  sort_Strings (map_to_list (sqlDrivers s)).*1.

Definition Strategies (s : state) : list string :=
  sort_Strings (map_to_list (strategies s)).*1.

(** The order of [sort.Strings]. *)
Definition String_le (a b : string) : Prop := String.leb a b = true.

(** What a monitor keeps about its outstanding connections and its
    scope: no pointer twice; every pointer leads to an allocated wrapper
    that is not invalidated and is bound to the monitor's active scope;
    the active scope was made by [context.WithCancel] and is not
    cancelled. *)
Definition wf_monitor (h : list managedConn) (nx : Ctx) (cn : list Ctx)
    (cg : chanGroup) : Prop :=
  NoDup (conns cg)
  ∧ (∀ p, p ∈ conns cg →
       ∃ mc, h !! p = Some mc ∧ mc_reset mc = false ∧ mc_ctx mc = ctx cg)
  ∧ ctx cg < nx
  ∧ ctx cg ∉ cn.

(** What the process keeps: every monitor of the table is well formed,
    two monitors never share their active scope, and every cancelled
    scope is one that was made before. *)
Definition wf_parts (cgs : gmap string chanGroup) (h : list managedConn)
    (nx : Ctx) (cn : list Ctx) : Prop :=
  (∀ name cg, cgs !! name = Some cg → wf_monitor h nx cn cg)
  ∧ (∀ n1 n2 cg1 cg2, n1 ≠ n2 → cgs !! n1 = Some cg1 → cgs !! n2 = Some cg2 →
       ctx cg1 ≠ ctx cg2)
  ∧ (∀ c, c ∈ cn → c < nx).

Definition wf_state (s : state) : Prop :=
  wf_parts (cgroup s) (mconns (rt s)) (ctxNext (rt s)) (cancelled (rt s)).



(** Events by which [hdriver.Open] shows: calls of [Watch] and of a
    driver, log lines, the start of a loop. *)
Definition is_open_event (e : event) : bool :=
  match e with
  | EWatch _ _ _ | EDriverOpen _ | ELog _ | EGo _ => true
  | _ => false
  end.
(** The value the last of the option maps [ms] that binds [k] gives
    it. *)
Definition last_binding (k : string) (ms : list (gmap string string))
  : option string :=
  foldl (λ acc m, match m !! k with Some v => Some v | None => acc end) None ms.
End Hotload.

Arguments mkStrategy {World} Watch.
Arguments mkDriver {World} drv_Open.

(** ** A reference instance of [NetURL]

    An executable rendering of the [net/url] functions for the strings
    used in the examples below: no percent escapes, no bracketed hosts, no
    control characters beyond the one check of [parse].  It follows the Go
    functions step by step on that fragment. *)
Module GoURL.

(** [strings.Cut] on a one-byte separator. *)
Fixpoint cut (sep : ascii) (s : string) : string * option string :=
  match s with
  | EmptyString => (EmptyString, None)
  | String c s' =>
      if Ascii.eqb c sep then (EmptyString, Some s')
      else let '(a, b) := cut sep s' in (String c a, b)
  end.

Fixpoint contains (sep : ascii) (s : string) : bool :=
  match s with
  | EmptyString => false
  | String c s' => Ascii.eqb c sep || contains sep s'
  end.

Definition between (lo hi : nat) (c : ascii) : bool :=
  (lo <=? nat_of_ascii c) && (nat_of_ascii c <=? hi).

Definition is_letter (c : ascii) : bool := between 97 122 c || between 65 90 c.

Definition is_scheme_punct (c : ascii) : bool :=
  between 48 57 c || Ascii.eqb c "+" || Ascii.eqb c "-" || Ascii.eqb c ".".

Definition to_lower (c : ascii) : ascii :=
  if between 65 90 c then ascii_of_nat (nat_of_ascii c + 32) else c.

Fixpoint ToLower (s : string) : string :=
  match s with
  | EmptyString => EmptyString
  | String c s' => String (to_lower c) (ToLower s')
  end.

Fixpoint stringContainsCTLByte (s : string) : bool :=
  match s with
  | EmptyString => false
  | String c s' =>
      (nat_of_ascii c <? 32) || (nat_of_ascii c =? 127) || stringContainsCTLByte s'
  end.

(** [getScheme]: an error, no scheme, or the scheme and what follows the
    colon. *)
Fixpoint getScheme_from (first : bool) (s : string)
  : string + option (string * string) :=
  match s with
  | EmptyString => inr None
  | String c s' =>
      let go_on :=
        match getScheme_from false s' with
        | inr (Some (sch, rest)) => inr (Some (String c sch, rest))
        | other => other
        end in
      if is_letter c then go_on
      else if is_scheme_punct c then (if first then inr None else go_on)
      else if Ascii.eqb c ":" then
        (if first then inl "missing protocol scheme" else inr (Some (EmptyString, s')))
      else inr None
  end.

Definition getScheme (rawURL : string) : string + string * string :=
  match getScheme_from true rawURL with
  | inl e => inl e
  | inr None => inr (EmptyString, rawURL)
  | inr (Some p) => inr p
  end.

(** [strings.LastIndex(authority, "@")] and the two halves. *)
Fixpoint cut_last (sep : ascii) (s : string) : option (string * string) :=
  match s with
  | EmptyString => None
  | String c s' =>
      match cut_last sep s' with
      | Some (a, b) => Some (String c a, b)
      | None => if Ascii.eqb c sep then Some (EmptyString, s') else None
      end
  end.

Definition parseAuthority (authority : string) : string * string :=
  match cut_last "@" authority with
  | None => (EmptyString, authority)
  | Some (user, host) => (user, host)
  end.

Definition non_empty (s : string) : bool :=
  match s with EmptyString => false | _ => true end.

(** [parse(rawURL, viaRequest)]. *)
Definition parse (rawURL : string) (viaRequest : bool) : URL + string :=
  if stringContainsCTLByte rawURL then inr "net/url: invalid control character in URL"
  else if negb (non_empty rawURL) && viaRequest then inr "empty url"
  else if String.eqb rawURL "*" then
    inl (mkURL EmptyString EmptyString EmptyString EmptyString "*" EmptyString EmptyString)
  else
    match getScheme rawURL with
    | inl e => inr e
    | inr (scheme, rest) =>
        let scheme := ToLower scheme in
        let '(rest, q) := cut "?" rest in
        let rawq := default EmptyString q in
        if negb (String.prefix "/" rest) && non_empty scheme then
          inl (mkURL scheme rest EmptyString EmptyString EmptyString rawq EmptyString)
        else if negb (String.prefix "/" rest) && viaRequest then
          inr "invalid URI for request"
        else if negb (String.prefix "/" rest) && contains ":" (fst (cut "/" rest)) then
          inr "first path segment in URL cannot contain colon"
        else if (non_empty scheme || (negb viaRequest && negb (String.prefix "///" rest)))
                && String.prefix "//" rest then
          let after := String.substring 2 (String.length rest - 2) rest in
          let '(authority, tail) := cut "/" after in
          let path :=
            match tail with
            | Some t => String "/" t
            | None => EmptyString
            end in
          let '(user, host) := parseAuthority authority in
          inl (mkURL scheme EmptyString user host path rawq EmptyString)
        else
          inl (mkURL scheme EmptyString EmptyString EmptyString rest rawq EmptyString)
    end.

Definition quote (s : string) : string :=
  String (ascii_of_nat 34) (s +:+ String (ascii_of_nat 34) EmptyString).

(** The message of [&url.Error{Op, URL, Err}]. *)
Definition url_error (op u err : string) : string :=
  op +:+ " " +:+ quote u +:+ ": " +:+ err.

Definition Parse (rawURL : string) : URL + string :=
  let '(u, frag) := cut "#" rawURL in
  match parse u false with
  | inr e => inr (url_error "parse" u e)
  | inl url =>
      inl (mkURL (Scheme url) (Opaque url) (User url) (Host url) (Path url)
             (RawQuery url) (default EmptyString frag))
  end.

Definition ParseRequestURI (rawURL : string) : URL + string :=
  match parse rawURL true with
  | inr e => inr (url_error "parse" rawURL e)
  | inl url => inl url
  end.

(** [parseQuery]: the loop over the pieces between ampersands. *)
Fixpoint split (sep : ascii) (s : string) : list string :=
  match s with
  | EmptyString => [EmptyString]
  | String c s' =>
      if Ascii.eqb c sep then EmptyString :: split sep s'
      else match split sep s' with
           | [] => [String c EmptyString]
           | w :: ws => String c w :: ws
           end
  end.

Definition parseQuery_piece (acc : Values * option string) (key : string)
  : Values * option string :=
  let '(m, err) := acc in
  if contains ";" key then (m, Some "invalid semicolon separator in query")
  else if negb (non_empty key) then (m, err)
  else
    let '(k, v) := cut "=" key in
    (<[k := default [] (m !! k) ++ [default EmptyString v]]> m, err).

Definition ParseQuery (query : string) : Values * option string :=
  foldl parseQuery_piece (∅, None) (split "&" query).

(** [Values.Encode]: keys in byte order. *)
Fixpoint insert_sorted (k : string) (l : list string) : list string :=
  match l with
  | [] => [k]
  | x :: l' => if String.leb k x then k :: x :: l' else x :: insert_sorted k l'
  end.

Definition sorted_keys (v : Values) : list string :=
  foldr insert_sorted [] (fst <$> map_to_list v).

Definition join (sep : string) (l : list string) : string :=
  match l with
  | [] => EmptyString
  | x :: l' => foldl (λ acc y, acc +:+ sep +:+ y) x l'
  end.

Definition Encode (v : Values) : string :=
  join "&"
    (k ← sorted_keys v; (λ x, k +:+ "=" +:+ x) <$> default [] (v !! k)).

(** [URL.String]. *)
Definition URLString (u : URL) : string :=
  (if non_empty (Scheme u) then Scheme u +:+ ":" else EmptyString)
  +:+ (if non_empty (Opaque u) then Opaque u
       else
         (if non_empty (Scheme u) || non_empty (Host u) || non_empty (User u) then
            (if non_empty (Host u) || non_empty (Path u) || non_empty (User u)
             then "//" else EmptyString)
            +:+ (if non_empty (User u) then User u +:+ "@" else EmptyString)
            +:+ Host u
          else EmptyString)
         +:+ (if non_empty (Path u) && negb (String.prefix "/" (Path u)) && non_empty (Host u)
              then "/" else EmptyString)
         +:+ Path u)
  +:+ (if non_empty (RawQuery u) then "?" +:+ RawQuery u else EmptyString)
  +:+ (if non_empty (Fragment u) then "#" +:+ Fragment u else EmptyString).

Definition net : NetURL := mkNetURL Parse ParseRequestURI ParseQuery Encode URLString.

End GoURL.

Arguments mkDriverInstance {World} driver options.

(** ** Concrete surroundings for the examples

    The outside world is the number of driver and connection calls made
    so far; a connection handed out by a driver is named after the count
    at that moment. *)
Module Demo.

Definition close_failing (c : Conn) (w : nat) : option string * nat :=
  (Some "close failed"%string, S w).

Definition close_ok (c : Conn) (w : nat) : option string * nat := (None, S w).

Definition drv_ok : @Driver nat :=
  mkDriver (λ _ w, (inl w, S w)).

Definition drv_down : @Driver nat :=
  mkDriver (λ _ w, (inr (None, "connection refused"%string), S w)).

(** Refuses the first call, accepts the later ones. *)
Definition drv_flaky : @Driver nat :=
  mkDriver (λ _ w,
    (if Nat.eqb w 0 then inr (None, "connection refused"%string) else inl w, S w)).

Definition strat_fixed (v : string) : @Strategy nat :=
  mkStrategy (λ _ _ w, ((v, 7, None), w)).

Definition strat_failing : @Strategy nat :=
  mkStrategy (λ _ _ w, ((EmptyString, 0, Some "no such file"%string), w)).

(** A monitor on ["host=a"] with three connections out, and the runtime
    that holds them. *)
Definition cg3 (fk : bool) : @chanGroup nat :=
  mkChanGroup "host=a" 7 0 1 (mkDriverInstance drv_ok ∅) fk [0; 1; 2].

Definition rt3 : @runtime nat :=
  mkRuntime [newManagedConn 1 10; newManagedConn 1 11; newManagedConn 1 12]
    2 [] 3 [].

(** A monitor on [v] whose driver was registered with the option
    [sslmode=disable], and one whose driver refuses every call. *)
Definition cg_opts (v : string) : @chanGroup nat :=
  mkChanGroup v 7 0 1
    (mkDriverInstance drv_ok {["sslmode"%string := "disable"%string]})
    false [].

Definition cg_down : @chanGroup nat :=
  mkChanGroup "host=a" 7 0 1 (mkDriverInstance drv_down ∅) false [0; 1; 2].

(** The process after the strategy [st] was registered as ["strat"] and
    the driver [d] as ["d"]. *)
Definition registered (st : @Strategy nat) (d : @Driver nat) : @state nat :=
  exec_all GoURL.net close_failing
    [OpRegisterStrategy "strat" (Some st); OpRegisterSQLDriver "d" (Some d) []]
    (init_state 0).

(** Two addresses opened on the same strategy and driver. *)
Definition two_addresses : list (@op nat) :=
  [OpRegisterStrategy "strat" (Some (strat_fixed "host=a"));
   OpRegisterSQLDriver "d" (Some drv_ok) [];
   OpOpen "strat://d/a"; OpOpen "strat://d/b"].

End Demo.

(** ** Properties *)

Section Properties.
Context {World : Type}.
Context (net : NetURL).
Context (conn_Close : Conn → World → option string * World).

Implicit Types (cg : @chanGroup World) (r : @runtime World) (s : @state World).

(** *** The loop of [resetConnections] *)

Lemma mc_Close_mconns p r : mconns (mc_Close conn_Close p r).2 = mconns r.
Proof.
  unfold mc_Close. destruct (mconns r !! p) as [mc|]; [|done].
  by destruct (conn_Close (mc_conn mc) (world r)).
Qed.

Lemma mc_Close_trace p r : trace (mc_Close conn_Close p r).2 = EClose p :: trace r.
Proof.
  unfold mc_Close. destruct (mconns r !! p) as [mc|]; [|done].
  by destruct (conn_Close (mc_conn mc) (world r)).
Qed.

Lemma mc_Close_ctx p r :
  ctxNext (mc_Close conn_Close p r).2 = ctxNext r
  ∧ cancelled (mc_Close conn_Close p r).2 = cancelled r.
Proof.
  unfold mc_Close. destruct (mconns r !! p) as [mc|]; [|done].
  by destruct (conn_Close (mc_conn mc) (world r)).
Qed.

Lemma reset_loop_mconns fk l r :
  mconns (foldl (resetConnections_body conn_Close fk) r l)
  = foldl (λ h c, alter invalidate c h) (mconns r) l.
Proof.
  revert r. induction l as [|c l IH]; intros r; [done|].
  cbn [foldl]. rewrite IH. f_equal.
  unfold resetConnections_body. destruct fk; [|done].
  by rewrite mc_Close_mconns.
Qed.

Lemma reset_loop_trace fk l r :
  trace (foldl (resetConnections_body conn_Close fk) r l)
  = reverse (l ≫= reset_events fk) ++ trace r.
Proof.
  revert r. induction l as [|c l IH]; intros r; [done|].
  cbn [foldl]. rewrite IH. rewrite bind_cons, reverse_app.
  rewrite <- app_assoc. f_equal.
  unfold resetConnections_body, reset_events. destruct fk; [|done].
  by rewrite mc_Close_trace.
Qed.

Lemma reset_loop_ctx fk l r :
  ctxNext (foldl (resetConnections_body conn_Close fk) r l) = ctxNext r
  ∧ cancelled (foldl (resetConnections_body conn_Close fk) r l) = cancelled r.
Proof.
  revert r. induction l as [|c l IH]; intros r; [done|].
  cbn [foldl]. destruct (IH (resetConnections_body conn_Close fk r c)) as [-> ->].
  unfold resetConnections_body. destruct fk; [|done].
  by destruct (mc_Close_ctx c (mc_Reset c true r)) as [-> ->].
Qed.

Lemma reset_loop_world_soft l r :
  world (foldl (resetConnections_body conn_Close false) r l) = world r.
Proof.
  revert r. induction l as [|c l IH]; intros r; [done|].
  cbn [foldl]. by rewrite IH.
Qed.

Lemma invalidate_all_lookup (l : list nat) (h : list managedConn) (p : nat) :
  foldl (λ h c, alter invalidate c h) h l !! p
  = if decide (p ∈ l) then invalidate <$> h !! p else h !! p.
Proof.
  revert h. induction l as [|c l IH]; intros h.
  - cbn. rewrite decide_False; [done|]. apply not_elem_of_nil.
  - cbn [foldl]. rewrite IH. rewrite list_lookup_alter.
    destruct (decide (c = p)) as [->|Hne].
    + rewrite (decide_True (P := p ∈ p :: l)); [|by left].
      destruct (decide (p ∈ l)); [|done].
      by destruct (h !! p).
    + destruct (decide (p ∈ l)) as [Hin|Hnin].
      * rewrite decide_True; [done|by right].
      * rewrite decide_False; [done|]. rewrite elem_of_cons.
        intros [Heq|Hin]; [by subst|done].
Qed.

(** *** [chanGroup.Open] and [valueChanged], step by step *)

Lemma valueChanged_eq v cg r :
  valueChanged conn_Close v cg r
  = (mkChanGroup v (values cg) (parentCtx cg) (ctxNext r) (sqlDriver cg)
       (forceKill cg) [],
     foldl (resetConnections_body conn_Close (forceKill cg))
       (WithCancel (parentCtx cg) (cancel (ctx cg) r)).2 (conns cg)).
Proof. done. Qed.

Lemma merge_error_is_Errorf dsn opts junk e :
  mergeConnectionStringOptions net dsn opts = (junk, Some e) →
  ∃ msg, e = Errorf msg.
Proof.
  unfold mergeConnectionStringOptions.
  destruct (decide (size opts = 0)); [done|].
  destruct (url_ParseRequestURI net dsn) as [u|m].
  - destruct (url_ParseQuery net (RawQuery u)) as [vals [m|]]; [|done].
    intros [= _ <-]. eauto.
  - intros [= _ <-]. eauto.
Qed.

Lemma cg_Open_spec cg r : Open_spec net cg r (cg_Open net cg r).
Proof.
  unfold cg_Open.
  destruct (mergeConnectionStringOptions net (value cg) (options (sqlDriver cg)))
    as [dsn [e|]] eqn:Hm.
  - destruct (merge_error_is_Errorf _ _ _ _ Hm) as [msg ->].
    exact (Open_merge_failed net cg r dsn msg Hm).
  - destruct (drv_Open (driver (sqlDriver cg)) dsn (world r)) as [[conn|[conn err]] w] eqn:Hd.
    + exact (Open_connected net cg r dsn conn w Hm Hd).
    + exact (Open_driver_failed net cg r dsn conn err w Hm Hd).
Qed.

Lemma open_n_uses_value n cg r cg' r' :
  open_n net n cg r = (cg', r') →
  value cg' = value cg ∧ sqlDriver cg' = sqlDriver cg
  ∧ ∃ evs, trace r' = evs ++ trace r
           ∧ Forall (opens_with net (value cg) (options (sqlDriver cg))) evs.
Proof.
  revert cg r. induction n as [|n IH]; intros cg r.
  - intros [= <- <-]. split_and!; [done..|]. by exists [].
  - cbn [open_n]. destruct (cg_Open_spec cg r) as [junk msg Hm|dsn conn err w Hm Hd|dsn conn w Hm Hd].
    + intros H. apply IH in H. done.
    + intros H. apply IH in H as (Hv & Hs & evs & Ht & Hall).
      split_and!; [done..|].
      exists (evs ++ [EDriverOpen dsn]). split.
      * rewrite Ht. by rewrite <- app_assoc.
      * apply Forall_app. split; [done|]. apply Forall_singleton. by exists dsn.
    + intros H. apply IH in H as (Hv & Hs & evs & Ht & Hall).
      split_and!; [done..|].
      exists (evs ++ [EDriverOpen dsn]). split.
      * rewrite Ht. by rewrite <- app_assoc.
      * apply Forall_app. split; [done|]. apply Forall_singleton. by exists dsn.
Qed.

Lemma open_n_spec n cg r cg' r' :
  open_n net n cg r = (cg', r') →
  value cg' = value cg ∧ sqlDriver cg' = sqlDriver cg ∧ ctx cg' = ctx cg
  ∧ (∃ news, mconns r' = mconns r ++ news
             ∧ Forall (λ mc, mc_reset mc = false ∧ mc_ctx mc = ctx cg) news)
  ∧ (∀ dsn, mergeConnectionStringOptions net (value cg) (options (sqlDriver cg))
            = (dsn, None) →
            trace r' = replicate n (EDriverOpen dsn) ++ trace r).
Proof.
  revert cg r. induction n as [|n IH]; intros cg r.
  - intros [= <- <-]. split_and!; [done..| |done]. exists []. by rewrite app_nil_r.
  - cbn [open_n].
    destruct (cg_Open_spec cg r) as [junk msg Hm|dsn conn err w Hm Hd|dsn conn w Hm Hd].
    + intros H. apply IH in H as (Hv & Hs & Hc & Hnew & Ht).
      split_and!; [done..|]. intros dsn Hdsn. congruence.
    + intros H. apply IH in H as (Hv & Hs & Hc & Hnew & Ht).
      split_and!; [done..|]. intros dsn' Hdsn.
      assert (dsn' = dsn) as -> by congruence.
      rewrite (Ht dsn Hdsn). cbn [emit trace set_world].
      by rewrite replicate_S_end, <- app_assoc.
    + intros H. apply IH in H as (Hv & Hs & Hc & (news & Hnew & Hall) & Ht).
      cbn [value sqlDriver ctx set_conns] in *.
      split_and!; [done..| |].
      * exists (newManagedConn (ctx cg) conn :: news). split.
        -- rewrite Hnew. cbn [set_mconns mconns emit set_world].
           by rewrite <- app_assoc.
        -- by constructor.
      * intros dsn' Hdsn. assert (dsn' = dsn) as -> by congruence.
        rewrite (Ht dsn Hdsn). cbn [emit trace set_world set_mconns].
        by rewrite replicate_S_end, <- app_assoc.
Qed.

(** *** The swap under the mutex *)

Lemma resetConnections_mu_soft cg l r :
  resetConnections_mu conn_Close false cg l r
  = Returned (foldl (resetConnections_body conn_Close false) r l).
Proof. revert r. induction l as [|c l IH]; intros r; [done|]. cbn. apply IH. Qed.

Lemma valueChanged_mu_cases v cg r :
  valueChanged_mu conn_Close v cg r
  = match forceKill cg, conns cg with
    | true, _ :: _ => Blocked
    | _, _ => Returned (valueChanged conn_Close v cg r)
    end.
Proof.
  unfold valueChanged_mu, valueChanged, resetConnections.
  cbn [WithCancel forceKill conns set_ctx].
  destruct (forceKill cg).
  - by destruct (conns cg).
  - rewrite resetConnections_mu_soft. by destruct (conns cg).
Qed.

(** C1.  A swap returns exactly when the monitor is without
    [forceKill] or has no connection out.  When [valueChanged v]
    returns, the monitor holds [v]
    as its current value and has no outstanding connection, and every
    wrapper that was outstanding before the swap has its invalidation
    flag set by a [Reset(true)].  Every [Open] that then runs on the
    monitor, after any number of others, works on [v]: if [v] does not
    merge with the driver's options it returns that error and calls
    nothing; if it does, it calls the driver once, with the merge of [v]
    and with nothing else, and returns what the driver returns, a
    connection in a new wrapper that is not invalidated and is bound to
    the scope the swap made, or the error as it comes.  The wrappers
    made after the swap stay that way. *)
Theorem valueChanged_swaps v cg r :
  ((∃ cg' r', valueChanged_mu conn_Close v cg r = Returned (cg', r'))
   ↔ forceKill cg = false ∨ conns cg = [])
  ∧ ∀ cg' r',
      valueChanged_mu conn_Close v cg r = Returned (cg', r') →
      value cg' = v
      ∧ conns cg' = []
      ∧ (∀ p mc, p ∈ conns cg → mconns r !! p = Some mc →
           mconns r' !! p = Some (invalidate mc) ∧ EReset p true ∈ trace r')
      ∧ (∀ n cg'' r'', open_n net n cg' r' = (cg'', r'') →
           value cg'' = v
           ∧ (∃ evs, trace r'' = evs ++ trace r'
                     ∧ Forall (opens_with net v (options (sqlDriver cg))) evs)
           ∧ (∃ news, mconns r'' = mconns r' ++ news
                      ∧ Forall (λ mc, mc_reset mc = false ∧ mc_ctx mc = ctx cg')
                          news)
           ∧ (∀ junk e,
                mergeConnectionStringOptions net v (options (sqlDriver cg))
                = (junk, Some e) →
                cg'' = cg' ∧ r'' = r'
                ∧ cg_Open net cg'' r'' = ((None, Some e), cg'', r''))
           ∧ (∀ dsn,
                mergeConnectionStringOptions net v (options (sqlDriver cg))
                = (dsn, None) →
                trace r'' = replicate n (EDriverOpen dsn) ++ trace r'
                ∧ trace (cg_Open net cg'' r'').2 = EDriverOpen dsn :: trace r''
                ∧ world (cg_Open net cg'' r'').2
                  = (drv_Open (driver (sqlDriver cg)) dsn (world r'')).2
                ∧ match (drv_Open (driver (sqlDriver cg)) dsn (world r'')).1 with
                  | inl conn =>
                      (cg_Open net cg'' r'').1.1
                      = (Some (Managed (length (mconns r''))), None)
                      ∧ mconns (cg_Open net cg'' r'').2
                        = mconns r'' ++ [mkManagedConn (ctx cg') conn false]
                      ∧ conns (cg_Open net cg'' r'').1.2
                        = conns cg'' ++ [length (mconns r'')]
                  | inr (conn, err) =>
                      (cg_Open net cg'' r'').1
                      = ((RawConn <$> conn, Some (ExternalError err)), cg'')
                      ∧ mconns (cg_Open net cg'' r'').2 = mconns r''
                  end)).
Proof.
  rewrite valueChanged_mu_cases. split.
  { split.
    - intros (cg' & r' & Hret).
      destruct (forceKill cg); [|by left]. destruct (conns cg); [by right|done].
    - intros [Hfk|Hc]; [rewrite Hfk|rewrite Hc; destruct (forceKill cg)];
        destruct (valueChanged conn_Close v cg r) as [cg' r']; by eexists _, _. }
  intros cg' r' Hret.
  assert (Hvc : valueChanged conn_Close v cg r = (cg', r')).
  { destruct (forceKill cg), (conns cg); congruence. }
  clear Hret. revert Hvc.
  rewrite valueChanged_eq. intros [= <- <-]. split_and!; [done..| |].
  - intros p mc Hin Hp. split.
    + rewrite reset_loop_mconns, invalidate_all_lookup.
      rewrite decide_True by done. cbn. by rewrite Hp.
    + rewrite reset_loop_trace. apply elem_of_app. left.
      apply elem_of_reverse, list_elem_of_bind. exists p. split; [|done].
      unfold reset_events. destruct (forceKill cg); by left.
  - intros n cg'' r'' Hn.
    destruct (open_n_uses_value _ _ _ _ _ Hn) as (Hv & _ & Hev).
    destruct (open_n_spec _ _ _ _ _ Hn) as (_ & Hs & Hc & Hnew & Ht).
    cbn [value sqlDriver ctx] in *.
    split_and!; [done..| |].
    + intros junk e Hm.
      assert (Hfail : ∀ m cg1 r1 cg2 r2,
                value cg1 = v → sqlDriver cg1 = sqlDriver cg →
                open_n net m cg1 r1 = (cg2, r2) → cg2 = cg1 ∧ r2 = r1).
      { clear -Hm. induction m as [|m IH]; intros cg1 r1 cg2 r2 Hv1 Hs1.
        - by intros [= <- <-].
        - cbn [open_n]. unfold cg_Open. rewrite Hv1, Hs1, Hm. by apply IH. }
      apply Hfail in Hn as [-> ->]; [|done..].
      split_and!; [done..|]. unfold cg_Open. cbn [value sqlDriver].
      by rewrite Hm.
    + intros dsn Hm. split; [by apply Ht|].
      destruct (cg_Open_spec cg'' r'')
        as [junk msg Hm'|dsn' conn err w Hm' Hd|dsn' conn w Hm' Hd];
        rewrite Hv, Hs in Hm'; rewrite Hs in Hd || idtac; try congruence;
        assert (dsn' = dsn) as -> by congruence;
        rewrite Hd; cbn [fst snd emit trace world set_world set_mconns mconns conns
                         set_conns].
      * done.
      * split_and!; try done. by rewrite Hc.
Qed.

(** *** The swap and the force-kill switch *)

(** C4.  With [forceKill] set, [resetConnections] calls [Close] on the
    wrapper, and the [Close] of a wrapper goes back into its monitor
    through [remove], which waits for the mutex [valueChanged] holds.  So
    a swap on a monitor with [forceKill] and a connection out never
    returns.  With [forceKill] and no connection out the swap returns
    and calls nothing but the [cancel].  Without [forceKill] the swap returns; it runs
    [Reset(true)] on every connection that was out, in the order of the
    slice, and nothing else: no [Close] is called, the outside world is
    as it was, and every wrapper that was out has its flag set.  A
    [Close] called while nobody holds the mutex does return: the wrapper
    is cut from the slice, the underlying connection is closed and the
    error of that close is the result. *)
Theorem valueChanged_forceKill v cg r :
  (forceKill cg = true → conns cg ≠ [] →
   valueChanged_mu conn_Close v cg r = Blocked)
  ∧ (forceKill cg = true → conns cg = [] →
     valueChanged_mu conn_Close v cg r
     = Returned (mkChanGroup v (values cg) (parentCtx cg) (ctxNext r)
                   (sqlDriver cg) true [],
                 mkRuntime (mconns r) (S (ctxNext r)) (ctx cg :: cancelled r)
                   (world r) (ECancel (ctx cg) :: trace r)))
  ∧ (forceKill cg = false →
     ∃ r', valueChanged_mu conn_Close v cg r
           = Returned (mkChanGroup v (values cg) (parentCtx cg) (ctxNext r)
                         (sqlDriver cg) false [], r')
           ∧ trace r' = reverse ((λ p, EReset p true) <$> conns cg)
                        ++ ECancel (ctx cg) :: trace r
           ∧ (∀ p, EClose p ∈ trace r' → EClose p ∈ trace r)
           ∧ world r' = world r
           ∧ (∀ p mc, p ∈ conns cg → mconns r !! p = Some mc →
                mconns r' !! p = Some (invalidate mc)))
  ∧ (∀ p mc, mconns r !! p = Some mc →
       managedConn_Close conn_Close false p cg r
       = Returned (ExternalError <$> (conn_Close (mc_conn mc) (world r)).1,
                   remove p cg,
                   mkRuntime (mconns r) (ctxNext r) (cancelled r)
                     (conn_Close (mc_conn mc) (world r)).2
                     (EClose p :: trace r))).
Proof.
  rewrite valueChanged_mu_cases. split_and!.
  - intros -> Hne. by destruct (conns cg).
  - intros Hfk Hc. by rewrite Hfk, Hc, valueChanged_eq, Hfk, Hc.
  - intros Hfk. rewrite Hfk, valueChanged_eq, Hfk. eexists. split; [done|].
    rewrite reset_loop_trace, reset_loop_world_soft.
    assert (conns cg ≫= reset_events false = (λ p, EReset p true) <$> conns cg) as ->.
    { induction (conns cg) as [|c l IH]; [done|]. rewrite bind_cons, IH. done. }
    split_and!; [done| |done|].
    + intros p [Hin|Hin]%elem_of_app.
      * apply elem_of_reverse, list_elem_of_fmap in Hin as (q & Hq & _). done.
      * cbn in Hin. apply elem_of_cons in Hin as [Hin|Hin]; done.
    + intros p mc Hin Hp. rewrite reset_loop_mconns, invalidate_all_lookup.
      rewrite decide_True by done. cbn. by rewrite Hp.
  - intros p mc Hp. unfold managedConn_Close, remove_mu, mc_Close. rewrite Hp.
    by destruct (conn_Close (mc_conn mc) (world r)).
Qed.

(** *** The loop *)

(** C3.  A value equal to the current one, received by the loop, leaves
    the monitor and everything around it as they were (value, scope,
    outstanding connections, wrappers, contexts, world and trace: so no
    swap, no [Reset], no [Close], no log line), and the loop goes on; a
    value delivered twice in a row has the effect of one delivery. *)
Theorem run_ignores_unchanged_value cg r evs v :
  run_step conn_Close (Recv (value cg)) cg r = (true, cg, r)
  ∧ run conn_Close (Recv (value cg) :: evs) cg r = run conn_Close evs cg r
  ∧ run conn_Close (Recv v :: Recv v :: evs) cg r
    = run conn_Close (Recv v :: evs) cg r.
Proof.
  assert (Hstep : ∀ cg0 r0, run_step conn_Close (Recv (value cg0)) cg0 r0 = (true, cg0, r0)).
  { intros cg0 r0. unfold run_step. by rewrite decide_True. }
  split_and!.
  - apply Hstep.
  - cbn [run]. by rewrite Hstep.
  - assert (Hafter : (run_step conn_Close (Recv v) cg r).1.1 = true
                     ∧ value (run_step conn_Close (Recv v) cg r).1.2 = v).
    { unfold run_step. destruct (decide (v = value cg)) as [->|Hne]; [done|].
      by rewrite valueChanged_eq. }
    cbn [run]. destruct (run_step conn_Close (Recv v) cg r) as [[b cg1] r1].
    cbn in Hafter. destruct Hafter as [-> <-]. by rewrite Hstep.
Qed.

(** *** Failures of [chanGroup.Open] *)

(** C10.  When the merge succeeds and the driver's [Open] on the merged
    string returns an error, the monitor's [Open] returns that error and
    the connection result of the driver as they are; the monitor is
    unchanged and no wrapper is allocated. *)
Theorem cg_Open_driver_error cg r dsn conn err w :
  mergeConnectionStringOptions net (value cg) (options (sqlDriver cg)) = (dsn, None) →
  drv_Open (driver (sqlDriver cg)) dsn (world r) = (inr (conn, err), w) →
  ∃ r', cg_Open net cg r = ((RawConn <$> conn, Some (ExternalError err)), cg, r')
        ∧ mconns r' = mconns r
        ∧ trace r' = EDriverOpen dsn :: trace r
        ∧ world r' = w
        ∧ ctxNext r' = ctxNext r ∧ cancelled r' = cancelled r.
Proof.
  intros Hm Hd. unfold cg_Open. rewrite Hm, Hd. eexists. split; [done|]. done.
Qed.

(** *** The dispatcher, case by case *)

Lemma hdriver_Open_cases name s :
  Dispatch_spec net name s (hdriver_Open net name s).
Proof.
  unfold hdriver_Open.
  destruct (url_Parse net name) as [uri|e] eqn:Hp; [|by apply Dispatch_malformed].
  destruct (cgroup s !! name) as [cg|] eqn:Hc.
  { unfold monitor_Open. destruct (cg_Open net cg (rt s)) as [[res cg'] r'] eqn:Ho.
    by eapply Dispatch_reuse. }
  destruct (strategies s !! Scheme uri) as [strategy|] eqn:Hs;
    [|by eapply Dispatch_unsupported].
  destruct (sqlDrivers s !! Host uri) as [sqlDrv|] eqn:Hd;
    [|by eapply Dispatch_unknown].
  destruct (Watch strategy (Path uri) (URL_Query net uri) (world (rt s)))
    as [[[v vs] [e|]] w] eqn:Hw.
  { by eapply Dispatch_watch_failed. }
  cbn [WithCancel].
  destruct (parseValues (URL_Query net uri) _ _) as [[cg0|m] r3] eqn:Hv.
  - unfold monitor_Open. cbn [rt set_rt set_cgroup cgroup].
    destruct (cg_Open net cg0 (emit (EGo name) r3)) as [[res cg'] r'] eqn:Ho.
    exact (Dispatch_create net name s uri strategy sqlDrv v vs w cg0 r3 res cg' r'
             Hp Hc Hs Hd Hw Hv Ho).
  - exact (Dispatch_panic net name s uri strategy sqlDrv v vs w m r3
             Hp Hc Hs Hd Hw Hv).
Qed.

(** C7.  On a name that [url.Parse] rejects, [hdriver.Open] returns the
    error of the parser as it is, which is not
    [ErrMalformedConnectionString]; the state is untouched, so no monitor
    is created. *)
Theorem hdriver_Open_malformed name e s :
  url_Parse net name = inr e →
  hdriver_Open net name s = (Done (None, Some (UrlError e)), s)
  ∧ UrlError e ≠ ErrMalformedConnectionString.
Proof.
  intros Hp. unfold hdriver_Open. rewrite Hp. done.
Qed.

(** C9.  On an address with no monitor whose strategy and driver are
    registered, if [Watch] returns an error then [hdriver.Open] returns
    that error; the monitor table, the registries, the wrappers and the
    contexts are as before, no loop is started, and the trace has grown
    by the call of [Watch] alone. *)
Theorem hdriver_Open_watch_error name uri strategy sqlDrv v vs e w s :
  url_Parse net name = inl uri →
  cgroup s !! name = None →
  strategies s !! Scheme uri = Some strategy →
  sqlDrivers s !! Host uri = Some sqlDrv →
  Watch strategy (Path uri) (URL_Query net uri) (world (rt s))
    = ((v, vs, Some e), w) →
  ∃ s', hdriver_Open net name s = (Done (None, Some (ExternalError e)), s')
        ∧ cgroup s' = cgroup s
        ∧ sqlDrivers s' = sqlDrivers s ∧ strategies s' = strategies s
        ∧ mconns (rt s') = mconns (rt s)
        ∧ ctxNext (rt s') = ctxNext (rt s)
        ∧ cancelled (rt s') = cancelled (rt s)
        ∧ world (rt s') = w
        ∧ trace (rt s')
          = EWatch name (Path uri) (URL_Query net uri) :: trace (rt s).
Proof.
  intros Hp Hc Hs Hd Hw. unfold hdriver_Open. rewrite Hp, Hc, Hs, Hd, Hw.
  eexists. split; [done|]. done.
Qed.

(** *** Option merging *)

Lemma merge_fails_iff dsn opts :
  is_Some (mergeConnectionStringOptions net dsn opts).2
  ↔ size opts ≠ 0 ∧ unmergeable net dsn = true.
Proof.
  unfold mergeConnectionStringOptions, unmergeable.
  destruct (decide (size opts = 0)) as [Hz|Hnz].
  { cbn. split; [by intros [? ?]|by intros [? _]]. }
  destruct (url_ParseRequestURI net dsn) as [u|m]; [|cbn; by eauto].
  destruct (url_ParseQuery net (RawQuery u)) as [vals [m|]]; cbn.
  - by eauto.
  - split; [by intros [? ?]|by intros [_ ?]].
Qed.

Lemma merge_no_options dsn opts :
  size opts = 0 → mergeConnectionStringOptions net dsn opts = (dsn, None).
Proof.
  intros Hz. unfold mergeConnectionStringOptions. by destruct (decide (size opts = 0)).
Qed.

(** C6, amended.  [chanGroup.Open] fails with an error of
    [mergeConnectionStringOptions] exactly when the bound driver was
    registered with at least one option and the current value is rejected
    by [url.ParseRequestURI] or has a query that [url.ParseQuery] rejects;
    with no driver option the value goes to the driver as it is, URI or
    not: the driver is called once, with the value itself, and what it
    returns is what [Open] returns (a connection in a new wrapper, an
    error as it comes).  When [Open] fails in the merge, it returns no
    connection and changes neither the monitor nor anything around it;
    when it does not, the driver is called exactly once, with the merged
    string. *)
Theorem cg_Open_merge_failure cg r :
  (isOptionMergeFailure (cg_Open net cg r).1.1.2 = true
   ↔ size (options (sqlDriver cg)) ≠ 0 ∧ unmergeable net (value cg) = true)
  ∧ (isOptionMergeFailure (cg_Open net cg r).1.1.2 = true →
     (cg_Open net cg r).1.1.1 = None
     ∧ (cg_Open net cg r).1.2 = cg
     ∧ (cg_Open net cg r).2 = r)
  ∧ (size (options (sqlDriver cg)) = 0 →
     trace (cg_Open net cg r).2 = EDriverOpen (value cg) :: trace r
     ∧ world (cg_Open net cg r).2
       = (drv_Open (driver (sqlDriver cg)) (value cg) (world r)).2
     ∧ (cg_Open net cg r).1.1
       = match (drv_Open (driver (sqlDriver cg)) (value cg) (world r)).1 with
         | inl _ => (Some (Managed (length (mconns r))), None)
         | inr (conn, err) => (RawConn <$> conn, Some (ExternalError err))
         end)
  ∧ (isOptionMergeFailure (cg_Open net cg r).1.1.2 = false →
     trace (cg_Open net cg r).2
     = EDriverOpen
         (mergeConnectionStringOptions net (value cg) (options (sqlDriver cg))).1
       :: trace r).
Proof.
  pose proof (merge_fails_iff (value cg) (options (sqlDriver cg))) as Hiff.
  destruct (cg_Open_spec cg r) as [junk msg Hm|dsn conn err w Hm Hd|dsn conn w Hm Hd];
    rewrite Hm in Hiff; cbn in Hiff |- *.
  - split_and!; [|done| |done].
    + split; [intros _; apply Hiff; by eexists|done].
    + intros Hz. destruct Hiff as [Hiff _].
      destruct Hiff as [Hnz _]; [by eexists|done].
  - split_and!; [|done| |by rewrite Hm].
    + split; [done|]. intros H. apply Hiff in H as [? [=]].
    + intros Hz. rewrite (merge_no_options _ _ Hz) in Hm.
      injection Hm as <-. by rewrite Hd.
  - split_and!; [|done| |by rewrite Hm].
    + split; [done|]. intros H. apply Hiff in H as [? [=]].
    + intros Hz. rewrite (merge_no_options _ _ Hz) in Hm.
      injection Hm as <-. by rewrite Hd.
Qed.

(** *** Traces *)

Lemma count_events_app f evs tr :
  count_events f (evs ++ tr) = count_events f evs + count_events f tr.
Proof. induction evs as [|e evs IH]; cbn; [done|]. rewrite IH. lia. Qed.

Lemma count_quiet_go name evs tr :
  Forall (λ e, quiet e = true) evs →
  monitors_started name (evs ++ tr) = monitors_started name tr.
Proof.
  unfold monitors_started. induction 1 as [|e evs He _ IH]; [done|].
  cbn. rewrite IH. by destruct e.
Qed.

Lemma count_quiet_watch name evs tr :
  Forall (λ e, quiet e = true) evs →
  watch_calls name (evs ++ tr) = watch_calls name tr.
Proof.
  unfold watch_calls. induction 1 as [|e evs He _ IH]; [done|].
  cbn. rewrite IH. by destruct e.
Qed.

Lemma cg_Open_quiet cg r res cg' r' :
  cg_Open net cg r = (res, cg', r') →
  same_monitor cg cg'
  ∧ ∃ evs, trace r' = evs ++ trace r ∧ Forall (λ e, quiet e = true) evs.
Proof.
  intros Ho. pose proof (cg_Open_spec cg r) as Hs. rewrite Ho in Hs.
  inversion Hs; subst.
  - split; [by unfold same_monitor; split_and!; try done; left|].
    by exists [].
  - split; [by unfold same_monitor; split_and!; try done; left|].
    exists [EDriverOpen dsn]. split; [done|]. by repeat constructor.
  - split; [unfold same_monitor; split_and!; try done; right; by eexists|].
    exists [EDriverOpen dsn]. split; [done|]. by repeat constructor.
Qed.

Lemma logs_are_quiet evs :
  Forall (λ e, is_log e = true) evs → Forall (λ e, quiet e = true) evs.
Proof. intros H. eapply Forall_impl; [exact H|]. by intros []. Qed.

Lemma parseValues_logs q cg r o r' :
  parseValues q cg r = (o, r') →
  (∀ cg', o = Done cg' → cg' = set_forceKill (forceKill_of q (forceKill cg)) cg)
  ∧ mconns r' = mconns r ∧ world r' = world r
  ∧ ctxNext r' = ctxNext r ∧ cancelled r' = cancelled r
  ∧ ∃ evs, trace r' = evs ++ trace r ∧ Forall (λ e, is_log e = true) evs.
Proof.
  unfold parseValues, forceKill_of.
  destruct (q !! "forceKill") as [[|firstValue l]|]; intros [= <- <-].
  - split_and!; try done. exists [ELog "parsing values"]. by repeat constructor.
  - split_and!; try done.
    + intros cg' [= <-]. by destruct cg.
    + exists [ELog "forceKill set to true"; ELog "parsing values"].
      by repeat constructor.
  - split_and!; try done.
    + intros cg' [= <-]. by destruct cg.
    + exists [ELog "parsing values"]. by repeat constructor.
Qed.

Lemma parseValues_quiet q cg r o r' :
  parseValues q cg r = (o, r') →
  (∀ cg', o = Done cg' → cg' = set_forceKill (forceKill_of q (forceKill cg)) cg)
  ∧ mconns r' = mconns r ∧ world r' = world r
  ∧ ctxNext r' = ctxNext r ∧ cancelled r' = cancelled r
  ∧ ∃ evs, trace r' = evs ++ trace r ∧ Forall (λ e, quiet e = true) evs.
Proof.
  intros (H1 & H2 & H3 & H4 & H5 & evs & Ht & Hl)%parseValues_logs.
  split_and!; try done. exists evs. split; [done|]. by apply logs_are_quiet.
Qed.

Lemma same_monitor_refl cg : same_monitor cg cg.
Proof. unfold same_monitor. split_and!; try done. by left. Qed.

Lemma run_step_quiet ev cg r b cg' r' :
  run_step conn_Close ev cg r = (b, cg', r') →
  ∃ evs, trace r' = evs ++ trace r ∧ Forall (λ e, quiet e = true) evs.
Proof.
  destruct ev as [|v]; cbn [run_step].
  - intros [= <- <- <-].
    exists [ELog "cancelling chanGroup context"; ECancel (ctx cg)].
    by repeat constructor.
  - destruct (decide (v = value cg)); [intros [= <- <- <-]; by exists []|].
    rewrite valueChanged_eq. intros [= <- <- <-].
    cbn [log emit trace]. rewrite reset_loop_trace.
    exists (ELog "connection information changed"
              :: reverse (conns cg ≫= reset_events (forceKill cg)) ++ [ECancel (ctx cg)]).
    split; [cbn; by rewrite <- app_assoc|].
    constructor; [done|]. apply Forall_app. split; [|by repeat constructor].
    apply Forall_reverse, Forall_forall. intros e (p & He & _)%list_elem_of_bind.
    unfold reset_events in He. destruct (forceKill cg);
      repeat (apply elem_of_cons in He as [->|He]; [done|]);
      by apply elem_of_nil in He.
Qed.

(** *** The registries *)

Lemma hdriver_Open_registries name s :
  sqlDrivers (hdriver_Open net name s).2 = sqlDrivers s
  ∧ strategies (hdriver_Open net name s).2 = strategies s
  ∧ hctx (hdriver_Open net name s).2 = hctx s.
Proof. by destruct (hdriver_Open_cases name s). Qed.

Lemma exec_keeps_entries o s :
  (∀ n di, sqlDrivers s !! n = Some di →
           sqlDrivers (exec net conn_Close o s) !! n = Some di)
  ∧ (∀ n st, strategies s !! n = Some st →
             strategies (exec net conn_Close o s) !! n = Some st).
Proof.
  destruct o as [name drv opts|name st|name|name v]; cbn [exec].
  - unfold RegisterSQLDriver. destruct drv as [d|]; [|done].
    destruct (sqlDrivers s !! name) as [di0|] eqn:Hl; [done|].
    destruct (apply_options _ opts) as [di1|m]; [|done].
    split; [|done]. intros n di Hn. cbn.
    rewrite lookup_insert_ne; [done|]. intros ->. congruence.
  - unfold RegisterStrategy. destruct st as [st|]; [|done].
    destruct (strategies s !! name) as [st0|] eqn:Hl; [done|].
    split; [done|]. intros n st' Hn. cbn.
    rewrite lookup_insert_ne; [done|]. intros ->. congruence.
  - destruct (hdriver_Open_registries name s) as (-> & -> & _). done.
  - destruct (cgroup s !! name) as [cg|]; [|done].
    by destruct (run_step conn_Close (Recv v) cg (rt s)) as [[b cg'] r'].
Qed.

Lemma exec_all_keeps_entries ops s :
  (∀ n di, sqlDrivers s !! n = Some di →
           sqlDrivers (exec_all net conn_Close ops s) !! n = Some di)
  ∧ (∀ n st, strategies s !! n = Some st →
             strategies (exec_all net conn_Close ops s) !! n = Some st).
Proof.
  revert s. induction ops as [|o ops IH]; intros s; [done|].
  cbn. destruct (IH (exec net conn_Close o s)) as [IHd IHs].
  destruct (exec_keeps_entries o s) as [Hd Hs]. split.
  - intros n di Hn. by apply IHd, Hd.
  - intros n st Hn. by apply IHs, Hs.
Qed.

(** The option loop panics exactly when one of the options is [nil];
    over functions that are all there it is the left fold. *)
Lemma apply_options_panics (di : @driverInstance World) opts :
  (∃ m, apply_options di opts = Panic m) ↔ None ∈ opts.
Proof.
  revert di. induction opts as [|[f|] opts IH]; intros di; cbn.
  - split; [by intros [m ?]|by intros ?%elem_of_nil].
  - rewrite IH. rewrite elem_of_cons. split; [by right|]. by intros [?|?].
  - split; [intros _; by left|by eexists].
Qed.

Lemma apply_options_funcs (di : @driverInstance World) fs :
  apply_options di (Some <$> fs) = Done (foldl (λ di f, f di) di fs).
Proof. revert di. induction fs as [|f fs IH]; intros di; cbn; [done|apply IH]. Qed.

(** C8.  [RegisterSQLDriver] panics exactly when the driver is [nil],
    the name is taken, or one of the options is a [nil] function.
    Otherwise, that is with a driver, a free name and options that are
    all functions, it binds the name to the driver with the options
    applied in order and leaves everything else alone, and whatever the
    process does afterwards (registrations, opens, updates) the name
    stays bound to that very entry.  [RegisterStrategy] panics exactly
    when the strategy is [nil] or the name is taken, and otherwise does
    the same for strategies. *)
Theorem registration_contract :
  (∀ name drv opts s,
     (∃ m, RegisterSQLDriver name drv opts s = Panic m)
     ↔ drv = None ∨ is_Some (sqlDrivers s !! name) ∨ None ∈ opts)
  ∧ (∀ name d fs s,
       sqlDrivers s !! name = None →
       ∃ s', RegisterSQLDriver name (Some d) (Some <$> fs) s = Done s'
             ∧ sqlDrivers s'
               = <[name := foldl (λ di f, f di) (mkDriverInstance d ∅) fs]>
                   (sqlDrivers s)
             ∧ strategies s' = strategies s
             ∧ cgroup s' = cgroup s ∧ rt s' = rt s
             ∧ ∀ ops, sqlDrivers (exec_all net conn_Close ops s') !! name
                      = sqlDrivers s' !! name)
  ∧ (∀ name st s,
       (∃ m, RegisterStrategy name st s = Panic m)
       ↔ st = None ∨ is_Some (strategies s !! name))
  ∧ (∀ name st s,
       strategies s !! name = None →
       ∃ s', RegisterStrategy name (Some st) s = Done s'
             ∧ strategies s' = <[name := st]> (strategies s)
             ∧ sqlDrivers s' = sqlDrivers s
             ∧ cgroup s' = cgroup s ∧ rt s' = rt s
             ∧ ∀ ops, strategies (exec_all net conn_Close ops s') !! name
                      = strategies s' !! name).
Proof.
  split_and!.
  - intros name drv opts s. unfold RegisterSQLDriver.
    destruct drv as [d|]; [|split; [by left|by eexists]].
    destruct (sqlDrivers s !! name) as [di|].
    + split; [right; by left|by eexists].
    + rewrite <- (apply_options_panics (mkDriverInstance d ∅) opts).
      destruct (apply_options _ opts) as [di|m].
      * split; [by intros [m ?]|]. intros [?|[[? ?]|[m ?]]]; done.
      * split; [intros _; right; right; by eexists|by eexists].
  - intros name d fs s Hfree. unfold RegisterSQLDriver.
    rewrite Hfree, apply_options_funcs.
    eexists. split; [done|]. split_and!; try done.
    intros ops. cbn [sqlDrivers set_sqlDrivers]. rewrite lookup_insert_eq.
    apply exec_all_keeps_entries. cbn. by rewrite lookup_insert_eq.
  - intros name st s. unfold RegisterStrategy.
    destruct st as [st|]; [|split; [by left|by eexists]].
    destruct (strategies s !! name) as [st0|].
    + split; [by right|by eexists].
    + split; [by intros [m ?]|]. intros [?|[? ?]]; done.
  - intros name st s Hfree. unfold RegisterStrategy. rewrite Hfree.
    eexists. split; [done|]. split_and!; try done.
    intros ops. cbn [strategies set_strategies]. rewrite lookup_insert_eq.
    apply exec_all_keeps_entries. cbn. by rewrite lookup_insert_eq.
Qed.

(** *** One monitor per address *)

Lemma init_table_matches (w : World) : table_matches_trace (init_state w).
Proof. intros name. cbn. by rewrite lookup_empty. Qed.

Lemma table_matches_update name cg cg' evs r' s :
  table_matches_trace s →
  cgroup s !! name = Some cg →
  trace r' = evs ++ trace (rt s) →
  Forall (λ e, quiet e = true) evs →
  table_matches_trace (set_rt r' (set_cgroup (<[name := cg']> (cgroup s)) s)).
Proof.
  intros Hinv Hc Ht Hq n. cbn. rewrite Ht, count_quiet_go by done.
  rewrite Hinv. destruct (decide (name = n)) as [<-|Hne].
  - by rewrite lookup_insert_eq, Hc.
  - by rewrite lookup_insert_ne.
Qed.

Lemma hdriver_Open_table_matches name s :
  table_matches_trace s → table_matches_trace (hdriver_Open net name s).2.
Proof.
  intros Hinv.
  destruct (hdriver_Open_cases name s)
    as [e Hp|uri cg res cg' r' Hp Hc Ho|uri Hp Hc Hs|uri strategy Hp Hc Hs Hd
       |uri strategy sqlDrv v vs e w Hp Hc Hs Hd Hw
       |uri strategy sqlDrv v vs w m r3 Hp Hc Hs Hd Hw Hv
       |uri strategy sqlDrv v vs w cg0 r3 res cg' r' Hp Hc Hs Hd Hw Hv Ho];
    cbn [snd]; try done.
  - apply cg_Open_quiet in Ho as (_ & evs & Ht & Hq).
    by eapply table_matches_update.
  - apply parseValues_quiet in Hv as (_ & _ & _ & _ & _ & evs & Ht & Hq).
    intros n. cbn. rewrite Ht, count_quiet_go by done. cbn. apply Hinv.
  - apply parseValues_quiet in Hv as (_ & _ & _ & _ & _ & evs1 & Ht1 & Hq1).
    apply cg_Open_quiet in Ho as (_ & evs2 & Ht2 & Hq2).
    intros n. cbn. rewrite Ht2, count_quiet_go by done. cbn [emit trace].
    unfold monitors_started. cbn [count_events is_go].
    fold (monitors_started n (trace r3)).
    rewrite Ht1, count_quiet_go by done. cbn. fold (monitors_started n (trace (rt s))).
    rewrite Hinv. destruct (decide (name = n)) as [<-|Hne].
    + rewrite lookup_insert_eq, Hc. by rewrite bool_decide_eq_true_2.
    + rewrite !lookup_insert_ne by done.
      rewrite bool_decide_eq_false_2 by done. done.
Qed.

Lemma exec_table_matches o s :
  table_matches_trace s → table_matches_trace (exec net conn_Close o s).
Proof.
  intros Hinv. destruct o as [name drv opts|name st|name|name v]; cbn [exec].
  - unfold RegisterSQLDriver. destruct drv as [d|]; [|done].
    destruct (sqlDrivers s !! name); [done|].
    by destruct (apply_options _ opts).
  - unfold RegisterStrategy. destruct st as [st|]; [|done].
    by destruct (strategies s !! name).
  - by apply hdriver_Open_table_matches.
  - destruct (cgroup s !! name) as [cg|] eqn:Hc; [|done].
    destruct (run_step conn_Close (Recv v) cg (rt s)) as [[b cg'] r'] eqn:Hr.
    apply run_step_quiet in Hr as (evs & Ht & Hq).
    by eapply table_matches_update.
Qed.

Lemma exec_all_table_matches ops s :
  table_matches_trace s → table_matches_trace (exec_all net conn_Close ops s).
Proof.
  revert s. induction ops as [|o ops IH]; intros s Hinv; [done|].
  cbn. by apply IH, exec_table_matches.
Qed.

(** C5, amended.  Over any run of the process from its start, a monitor
    loop has been started exactly once for each address in the monitor
    table and never for any other address.  An [Open] on an address that
    has a monitor goes to that monitor, which stays as it is but for the
    connection it may gain, and neither calls [Watch] nor starts a loop.
    An [Open] on an address without a monitor leaves one behind only
    after calling [Watch] exactly once and starting exactly one loop, and
    it does leave one behind whenever it returns a connection.  It
    leaves one behind exactly when the address parses, its strategy and
    its driver are registered, [Watch] returns without error and the
    [forceKill] parameter, if it is there, has a value: then the [Open]
    returns, with whatever result the driver gives, a connection or an
    error, and the table has gained under the address, and nowhere else,
    the monitor on the value, the channel and the driver entry, with
    the [forceKill] of the query and at most the one connection; [Watch]
    was called once and one loop started. *)
Theorem one_monitor_per_address :
  (∀ w ops, table_matches_trace (exec_all net conn_Close ops (init_state w)))
  ∧ (∀ name s cg,
       cgroup s !! name = Some cg →
       ∃ cg', cgroup (hdriver_Open net name s).2 !! name = Some cg'
              ∧ same_monitor cg cg'
              ∧ watch_calls name (trace (rt (hdriver_Open net name s).2))
                = watch_calls name (trace (rt s))
              ∧ monitors_started name (trace (rt (hdriver_Open net name s).2))
                = monitors_started name (trace (rt s)))
  ∧ (∀ name s,
       cgroup s !! name = None →
       (is_Some (cgroup (hdriver_Open net name s).2 !! name) →
        watch_calls name (trace (rt (hdriver_Open net name s).2))
          = S (watch_calls name (trace (rt s)))
        ∧ monitors_started name (trace (rt (hdriver_Open net name s).2))
          = S (monitors_started name (trace (rt s))))
       ∧ (∀ c, (hdriver_Open net name s).1 = Done (Some c, None) →
               is_Some (cgroup (hdriver_Open net name s).2 !! name)))
  ∧ (∀ name uri strategy sqlDrv v vs w s,
       url_Parse net name = inl uri →
       cgroup s !! name = None →
       strategies s !! Scheme uri = Some strategy →
       sqlDrivers s !! Host uri = Some sqlDrv →
       Watch strategy (Path uri) (URL_Query net uri) (world (rt s))
         = ((v, vs, None), w) →
       URL_Query net uri !! "forceKill" ≠ Some [] →
       ∃ res cg',
         (hdriver_Open net name s).1 = Done res
         ∧ cgroup (hdriver_Open net name s).2 = <[name := cg']> (cgroup s)
         ∧ same_monitor
             (mkChanGroup v vs (hctx s) (ctxNext (rt s)) sqlDrv
                (forceKill_of (URL_Query net uri) false) [])
             cg'
         ∧ watch_calls name (trace (rt (hdriver_Open net name s).2))
           = S (watch_calls name (trace (rt s)))
         ∧ monitors_started name (trace (rt (hdriver_Open net name s).2))
           = S (monitors_started name (trace (rt s))))
  ∧ (∀ name s,
       cgroup s !! name = None →
       is_Some (cgroup (hdriver_Open net name s).2 !! name) →
       ∃ uri strategy sqlDrv v vs w,
         url_Parse net name = inl uri
         ∧ strategies s !! Scheme uri = Some strategy
         ∧ sqlDrivers s !! Host uri = Some sqlDrv
         ∧ Watch strategy (Path uri) (URL_Query net uri) (world (rt s))
           = ((v, vs, None), w)
         ∧ URL_Query net uri !! "forceKill" ≠ Some []).
Proof.
  split_and!.
  - intros w ops. apply exec_all_table_matches, init_table_matches.
  - intros name s cg Hcg.
    destruct (hdriver_Open_cases name s)
      as [e Hp|uri cg1 res cg' r' Hp Hc Ho|uri Hp Hc Hs|uri strategy Hp Hc Hs Hd
         |uri strategy sqlDrv v vs e w Hp Hc Hs Hd Hw
         |uri strategy sqlDrv v vs w m r3 Hp Hc Hs Hd Hw Hv
         |uri strategy sqlDrv v vs w cg0 r3 res cg' r' Hp Hc Hs Hd Hw Hv Ho];
      cbn [fst snd]; try congruence.
    + exists cg. split_and!; try done. apply same_monitor_refl.
    + assert (cg1 = cg) as -> by congruence.
      apply cg_Open_quiet in Ho as (Hsame & evs & Ht & Hq).
      exists cg'. cbn. rewrite lookup_insert_eq. split_and!; [done|done| |].
      * by rewrite Ht, count_quiet_watch.
      * by rewrite Ht, count_quiet_go.
  - intros name s Hnone.
    destruct (hdriver_Open_cases name s)
      as [e Hp|uri cg1 res cg' r' Hp Hc Ho|uri Hp Hc Hs|uri strategy Hp Hc Hs Hd
         |uri strategy sqlDrv v vs e w Hp Hc Hs Hd Hw
         |uri strategy sqlDrv v vs w m r3 Hp Hc Hs Hd Hw Hv
         |uri strategy sqlDrv v vs w cg0 r3 res cg' r' Hp Hc Hs Hd Hw Hv Ho];
      cbn [fst snd]; try congruence.
    + rewrite Hnone. split; [by intros [? ?]|done].
    + rewrite Hnone. split; [by intros [? ?]|done].
    + rewrite Hnone. split; [by intros [? ?]|done].
    + cbn. rewrite Hnone. split; [by intros [? ?]|done].
    + cbn. rewrite Hnone. split; [by intros [? ?]|done].
    + apply parseValues_quiet in Hv as (_ & _ & _ & _ & _ & evs1 & Ht1 & Hq1).
      apply cg_Open_quiet in Ho as (_ & evs2 & Ht2 & Hq2).
      cbn. rewrite lookup_insert_eq. split; [|by eauto]. intros _.
      rewrite Ht2, count_quiet_watch, count_quiet_go by done. cbn [emit trace].
      unfold watch_calls, monitors_started. cbn [count_events is_go is_watch].
      fold (watch_calls name (trace r3)). fold (monitors_started name (trace r3)).
      rewrite Ht1, count_quiet_watch, count_quiet_go by done. cbn.
      by rewrite !bool_decide_eq_true_2.
  - intros name uri strategy sqlDrv v vs w s Hp Hnone Hs Hd Hw Hq.
    destruct (hdriver_Open_cases name s)
      as [e Hp'|uri' cg1 res cg' r' Hp' Hc' Ho|uri' Hp' Hc' Hs'
         |uri' strategy' Hp' Hc' Hs' Hd'
         |uri' strategy' sqlDrv' v' vs' e w' Hp' Hc' Hs' Hd' Hw'
         |uri' strategy' sqlDrv' v' vs' w' m r3 Hp' Hc' Hs' Hd' Hw' Hv
         |uri' strategy' sqlDrv' v' vs' w' cg0 r3 res cg' r' Hp' Hc' Hs' Hd' Hw' Hv Ho];
      try congruence;
      assert (uri' = uri) as -> by congruence; try congruence;
      assert (strategy' = strategy) as -> by congruence; try congruence;
      assert (sqlDrv' = sqlDrv) as -> by congruence;
      rewrite Hw in Hw'; injection Hw' as <- <- <-; try done.
    + exfalso. unfold parseValues in Hv.
      destruct (URL_Query net uri !! "forceKill") as [[|x l]|]; done.
    + destruct (parseValues_quiet _ _ _ _ _ Hv)
        as (Hcg0 & _ & _ & _ & _ & evs1 & Ht1 & Hq1).
      specialize (Hcg0 cg0 eq_refl). subst cg0.
      destruct (cg_Open_quiet _ _ _ _ _ Ho) as (Hsame & evs2 & Ht2 & Hq2).
      exists res, cg'. cbn [fst snd cgroup set_rt set_cgroup rt].
      split_and!; [done|by rewrite insert_insert_eq|exact Hsame| |].
      * rewrite Ht2, count_quiet_watch by done. cbn [emit trace].
        unfold watch_calls. cbn [count_events is_watch].
        fold (watch_calls name (trace r3)).
        rewrite Ht1, count_quiet_watch by done. cbn.
        by rewrite !bool_decide_eq_true_2.
      * rewrite Ht2, count_quiet_go by done. cbn [emit trace].
        unfold monitors_started. cbn [count_events is_go].
        fold (monitors_started name (trace r3)).
        rewrite Ht1, count_quiet_go by done. cbn.
        by rewrite !bool_decide_eq_true_2.
  - intros name s Hnone.
    destruct (hdriver_Open_cases name s)
      as [e Hp|uri cg1 res cg' r' Hp Hc Ho|uri Hp Hc Hs|uri strategy Hp Hc Hs Hd
         |uri strategy sqlDrv v vs e w Hp Hc Hs Hd Hw
         |uri strategy sqlDrv v vs w m r3 Hp Hc Hs Hd Hw Hv
         |uri strategy sqlDrv v vs w cg0 r3 res cg' r' Hp Hc Hs Hd Hw Hv Ho];
      cbn [fst snd cgroup set_rt]; rewrite ?Hnone; try congruence;
      try (by intros [? ?]).
    intros _. exists uri, strategy, sqlDrv, v, vs, w. split_and!; try done.
    intros Hq. unfold parseValues in Hv. rewrite Hq in Hv. done.
Qed.

(** *** What reaches the driver *)

Lemma cg_Open_dsn cg r dsn :
  EDriverOpen dsn ∈ trace (cg_Open net cg r).2 →
  EDriverOpen dsn ∈ trace r
  ∨ mergeConnectionStringOptions net (value cg) (options (sqlDriver cg))
    = (dsn, None).
Proof.
  destruct (cg_Open_spec cg r) as [junk msg Hm|d conn err w Hm Hd|d conn w Hm Hd];
    cbn; [by left|..].
  - intros [[= ->]|Hin]%elem_of_cons; [by right|by left].
  - intros [[= ->]|Hin]%elem_of_cons; [by right|by left].
Qed.

Lemma in_logs_not_open evs dsn :
  Forall (λ e, is_log e = true) evs → EDriverOpen dsn ∉ evs.
Proof.
  intros Hl Hin. rewrite Forall_forall in Hl. by specialize (Hl _ Hin).
Qed.

(** C2, amended.  The query parameters of a dispatch address go to
    [Watch], and [forceKill] is read from them; nothing else of them is
    kept.  The monitor made for the address holds the value [Watch]
    returned and the driver entry registered under the host, and every
    [Open] on a monitor calls the driver with the monitor's current value
    merged with the options that entry was registered with: a parameter
    such as [sslmode=disable] of the address is not part of it. *)
Theorem dsn_from_value_and_driver_options name uri strategy sqlDrv v vs w s :
  url_Parse net name = inl uri →
  cgroup s !! name = None →
  strategies s !! Scheme uri = Some strategy →
  sqlDrivers s !! Host uri = Some sqlDrv →
  Watch strategy (Path uri) (URL_Query net uri) (world (rt s)) = ((v, vs, None), w) →
  (∀ cg', cgroup (hdriver_Open net name s).2 !! name = Some cg' →
     value cg' = v ∧ sqlDriver cg' = sqlDrv
     ∧ forceKill cg' = forceKill_of (URL_Query net uri) false)
  ∧ (∀ dsn, EDriverOpen dsn ∈ trace (rt (hdriver_Open net name s).2) →
       EDriverOpen dsn ∈ trace (rt s)
       ∨ mergeConnectionStringOptions net v (options sqlDrv) = (dsn, None))
  ∧ EWatch name (Path uri) (URL_Query net uri)
    ∈ trace (rt (hdriver_Open net name s).2)
  ∧ (∀ cg r dsn, EDriverOpen dsn ∈ trace (cg_Open net cg r).2 →
       EDriverOpen dsn ∈ trace r
       ∨ mergeConnectionStringOptions net (value cg) (options (sqlDriver cg))
         = (dsn, None)).
Proof.
  intros Hp Hc Hs Hd Hw.
  assert (Hlast : ∀ cg r dsn, EDriverOpen dsn ∈ trace (cg_Open net cg r).2 →
       EDriverOpen dsn ∈ trace r
       ∨ mergeConnectionStringOptions net (value cg) (options (sqlDriver cg))
         = (dsn, None)) by apply cg_Open_dsn.
  destruct (hdriver_Open_cases name s)
    as [e Hp'|uri' cg1 res cg' r' Hp' Hc' Ho|uri' Hp' Hc' Hs'|uri' strategy' Hp' Hc' Hs' Hd'
       |uri' strategy' sqlDrv' v' vs' e w' Hp' Hc' Hs' Hd' Hw'
       |uri' strategy' sqlDrv' v' vs' w' m r3 Hp' Hc' Hs' Hd' Hw' Hv
       |uri' strategy' sqlDrv' v' vs' w' cg0 r3 res cg' r' Hp' Hc' Hs' Hd' Hw' Hv Ho];
    try congruence;
    assert (uri' = uri) as -> by congruence;
    try congruence;
    assert (strategy' = strategy) as -> by congruence;
    try congruence;
    assert (sqlDrv' = sqlDrv) as -> by congruence;
    rewrite Hw in Hw'; try done;
    injection Hw' as <- <- <-; cbn [fst snd].
  - apply parseValues_logs in Hv as (_ & _ & _ & _ & _ & evs & Ht & Hl).
    cbn [rt set_rt cgroup]. split_and!; [by rewrite Hc| | |done].
    + rewrite Ht. intros dsn [Hin|Hin]%elem_of_app.
      * by apply in_logs_not_open in Hin.
      * cbn in Hin. apply elem_of_cons in Hin as [[=]|Hin]. by left.
    + rewrite Ht. apply elem_of_app. right. by left.
  - apply parseValues_logs in Hv as (Hcg0 & _ & _ & _ & _ & evs & Ht & Hl).
    specialize (Hcg0 cg0 eq_refl). cbn [forceKill fresh_monitor] in Hcg0.
    pose proof (cg_Open_quiet _ _ _ _ _ Ho) as (Hsame & evs2 & Ht2 & Hq2).
    pose proof (Hlast cg0 (emit (EGo name) r3) ) as Hdsn. rewrite Ho in Hdsn.
    cbn [rt set_rt cgroup set_cgroup fst snd] in *.
    destruct Hsame as (Hv1 & _ & _ & _ & Hv2 & Hv3 & _).
    split_and!; [| | |done].
    + rewrite lookup_insert_eq. intros cg'' [= <-].
      rewrite Hv1, Hv2, Hv3, Hcg0. done.
    + intros dsn Hin. apply Hdsn in Hin as [Hin|Hm].
      * left. apply elem_of_cons in Hin as [[=]|Hin].
        rewrite Ht in Hin. apply elem_of_app in Hin as [Hin|Hin].
        -- by apply in_logs_not_open in Hin.
        -- cbn in Hin. by apply elem_of_cons in Hin as [[=]|Hin].
      * right. by rewrite Hcg0 in Hm.
    + rewrite Ht2. apply elem_of_app. right. right.
      rewrite Ht. apply elem_of_app. right. by left.
Qed.
End Properties.

(** ** The properties at concrete inputs *)

(** A swap without [forceKill] on a monitor with three connections out,
    and an [Open] after it. *)
Lemma valueChanged_swaps_witness :
  ∃ cg' r',
    valueChanged_mu Demo.close_failing "host=b" (Demo.cg3 false) Demo.rt3
    = Returned (cg', r')
    ∧ value cg' = "host=b"%string
    ∧ conns cg' = []
    ∧ mconns r' = [mkManagedConn 1 10 true; mkManagedConn 1 11 true;
                   mkManagedConn 1 12 true]
    ∧ trace (cg_Open GoURL.net cg' r').2 = EDriverOpen "host=b" :: trace r'
    ∧ (cg_Open GoURL.net cg' r').1.1 = (Some (Managed 3), None)
    ∧ mconns (cg_Open GoURL.net cg' r').2
      = mconns r' ++ [mkManagedConn (ctx cg') 3 false].
Proof.
  destruct (valueChanged_swaps GoURL.net Demo.close_failing "host=b"
              (Demo.cg3 false) Demo.rt3) as [Hret Hswap].
  destruct (proj2 Hret) as (cg' & r' & Hvc); [by left|].
  exists cg', r'. split; [exact Hvc|].
  destruct (Hswap cg' r' Hvc) as (Hv & Hc & Hinv & Hopen).
  destruct (Hopen 0 cg' r' eq_refl) as (_ & _ & _ & _ & Hdsn).
  destruct (Hdsn "host=b"%string eq_refl) as (_ & Ht & _ & Hres).
  assert (Hr' : r' = (valueChanged Demo.close_failing "host=b"
                        (Demo.cg3 false) Demo.rt3).2).
  { revert Hvc. rewrite valueChanged_mu_cases. cbn. by intros [= _ <-]. }
  assert (Hw : world r' = 3) by (rewrite Hr'; vm_compute; reflexivity).
  assert (Hm : mconns r' = [mkManagedConn 1 10 true; mkManagedConn 1 11 true;
                            mkManagedConn 1 12 true])
    by (rewrite Hr'; vm_compute; reflexivity).
  rewrite Hw in Hres. cbn in Hres. destruct Hres as (Hr1 & Hr2 & _).
  rewrite Hm in Hr1, Hr2 |- *. cbn in Hr1, Hr2 |- *. done.
Defined.

(** A swap with [forceKill] on a monitor with three connections out,
    whose closes would succeed: it never returns.  Without [forceKill]
    it does, after three [Reset(true)]. *)
Lemma valueChanged_forceKill_witness :
  valueChanged_mu Demo.close_ok "host=b" (Demo.cg3 true) Demo.rt3 = Blocked
  ∧ ∃ r', valueChanged_mu Demo.close_ok "host=b" (Demo.cg3 false) Demo.rt3
          = Returned (mkChanGroup "host=b" 7 0 2 (mkDriverInstance Demo.drv_ok ∅)
                        false [], r')
          ∧ trace r' = [EReset 2 true; EReset 1 true; EReset 0 true; ECancel 1]
          ∧ world r' = 3.
Proof.
  destruct (valueChanged_forceKill Demo.close_ok "host=b" (Demo.cg3 true) Demo.rt3)
    as (Hblock & _ & _).
  destruct (valueChanged_forceKill Demo.close_ok "host=b" (Demo.cg3 false) Demo.rt3)
    as (_ & _ & Hsoft & _).
  split.
  - apply Hblock; [reflexivity|discriminate].
  - destruct (Hsoft eq_refl) as (r' & Hvc & Ht & _ & Hw & _).
    exists r'. split; [exact Hvc|]. split; [exact Ht|exact Hw].
Defined.

Lemma cg_Open_driver_error_witness :
  ∃ r', cg_Open GoURL.net Demo.cg_down Demo.rt3
        = ((None, Some (ExternalError "connection refused")), Demo.cg_down, r')
        ∧ mconns r' = mconns Demo.rt3.
Proof.
  destruct (cg_Open_driver_error GoURL.net Demo.cg_down Demo.rt3
              "host=a" None "connection refused" 4) as (r' & Ho & Hm & _).
  - vm_compute; reflexivity.
  - vm_compute; reflexivity.
  - exists r'. by split.
Defined.

(** The address of scenario B: [sslmode=disable] is in its query and
    reaches [Watch], yet the one connection string the driver is called
    with is the watched value, without it. *)
Lemma address_options_not_merged :
  let addr := "strat://d/path?forceKill=true&sslmode=disable"%string in
  let out := hdriver_Open GoURL.net addr
               (Demo.registered (Demo.strat_fixed "postgres://h/db") Demo.drv_ok) in
  match GoURL.Parse addr with
  | inl u => URL_Query GoURL.net u !! "sslmode"%string
  | inr _ => None
  end = Some ["disable"%string]
  ∧ out.1 = Done (Some (Managed 0), None)
  ∧ driver_opens (trace (rt out.2)) = ["postgres://h/db"%string]
  ∧ match GoURL.Parse "postgres://h/db" with
    | inl u => URL_Query GoURL.net u !! "sslmode"%string
    | inr _ => Some []
    end = None.
Proof. vm_compute. repeat split; reflexivity. Qed.

Lemma dsn_from_value_and_driver_options_witness :
  let addr := "strat://d/path?forceKill=true&sslmode=disable"%string in
  let uri := mkURL "strat" "" "" "d" "/path" "forceKill=true&sslmode=disable" "" in
  let s := Demo.registered (Demo.strat_fixed "postgres://h/db") Demo.drv_ok in
  EWatch addr "/path" (URL_Query GoURL.net uri)
  ∈ trace (rt (hdriver_Open GoURL.net addr s).2).
Proof.
  intros addr uri s.
  refine (proj1 (proj2 (proj2
    (dsn_from_value_and_driver_options GoURL.net addr uri
       (Demo.strat_fixed "postgres://h/db") (mkDriverInstance Demo.drv_ok ∅)
       "postgres://h/db" 7 0 s _ _ _ _ _))));
    vm_compute; reflexivity.
Defined.

(** A driver that refuses the first call: the first [Open] fails and
    leaves the monitor behind; the second [Open], the first to succeed,
    finds that monitor and calls [Watch] no more. *)
Lemma first_successful_Open_finds_monitor :
  let addr := "strat://d/path"%string in
  let o1 := hdriver_Open GoURL.net addr
              (Demo.registered (Demo.strat_fixed "host=a") Demo.drv_flaky) in
  let o2 := hdriver_Open GoURL.net addr o1.2 in
  o1.1 = Done (None, Some (ExternalError "connection refused"))
  ∧ value <$> cgroup o1.2 !! addr = Some "host=a"%string
  ∧ o2.1 = Done (Some (Managed 0), None)
  ∧ watch_calls addr (trace (rt o1.2)) = 1
  ∧ watch_calls addr (trace (rt o2.2)) = 1
  ∧ monitors_started addr (trace (rt o1.2)) = 1
  ∧ monitors_started addr (trace (rt o2.2)) = 1.
Proof. vm_compute. repeat split; reflexivity. Qed.

(** A driver that refuses every call: the [Open] returns the error of
    the driver and the monitor is in the table all the same. *)
Lemma one_monitor_per_address_witness :
  let addr := "strat://d/path"%string in
  let s := Demo.registered (Demo.strat_fixed "host=a") Demo.drv_down in
  (hdriver_Open GoURL.net addr s).1
  = Done (None, Some (ExternalError "connection refused"))
  ∧ is_Some (cgroup (hdriver_Open GoURL.net addr s).2 !! addr)
  ∧ watch_calls addr (trace (rt (hdriver_Open GoURL.net addr s).2))
    = S (watch_calls addr (trace (rt s)))
  ∧ monitors_started addr (trace (rt (hdriver_Open GoURL.net addr s).2))
    = S (monitors_started addr (trace (rt s))).
Proof.
  intros addr s.
  destruct (proj1 (proj2 (proj2 (proj2
              (one_monitor_per_address GoURL.net Demo.close_failing))))
              addr (mkURL "strat" "" "" "d" "/path" "" "")
              (Demo.strat_fixed "host=a") (mkDriverInstance Demo.drv_down ∅)
              "host=a"%string 7 0 s)
    as (res & cg' & Hres & Hcg & _ & Hw & Hm);
    try (vm_compute; reflexivity).
  - vm_compute. discriminate.
  - split; [vm_compute; reflexivity|]. split; [|by split].
    rewrite Hcg, lookup_insert_eq. by eexists.
Defined.

(** Without driver options a value that is no URI goes through; with an
    option, a value that is a URI but has an unparsable query fails. *)
Lemma merge_failure_is_not_URI_shape :
  (URI_shaped GoURL.net "host=a" = false
   ∧ (cg_Open GoURL.net (Demo.cg3 false) Demo.rt3).1.1 = (Some (Managed 3), None))
  ∧ (URI_shaped GoURL.net "postgres://h/db?a;b" = true
     ∧ isOptionMergeFailure
         (cg_Open GoURL.net (Demo.cg_opts "postgres://h/db?a;b") Demo.rt3).1.1.2
       = true).
Proof. vm_compute. repeat split; reflexivity. Qed.

Lemma cg_Open_merge_failure_witness :
  (cg_Open GoURL.net (Demo.cg_opts "host=a") Demo.rt3).1.1.1 = None
  ∧ (cg_Open GoURL.net (Demo.cg_opts "host=a") Demo.rt3).1.2 = Demo.cg_opts "host=a"
  ∧ (cg_Open GoURL.net (Demo.cg_opts "host=a") Demo.rt3).2 = Demo.rt3.
Proof.
  destruct (cg_Open_merge_failure GoURL.net (Demo.cg_opts "host=a") Demo.rt3)
    as (Hiff & Hfail & _).
  apply Hfail, Hiff. vm_compute. split; [discriminate|reflexivity].
Defined.

Lemma hdriver_Open_malformed_witness :
  hdriver_Open GoURL.net ":foo" (init_state 0)
  = (Done (None, Some (UrlError (GoURL.url_error "parse" ":foo"
                                   "missing protocol scheme"))),
     init_state 0)
  ∧ UrlError (GoURL.url_error "parse" ":foo" "missing protocol scheme")
    ≠ ErrMalformedConnectionString.
Proof.
  apply (hdriver_Open_malformed GoURL.net ":foo").
  vm_compute; reflexivity.
Defined.

(** A driver that is there, a name that is free, and a [nil] option:
    the registration panics at the call of the option. *)
Lemma nil_option_panics :
  RegisterSQLDriver "d" (Some Demo.drv_ok) [None] (init_state 0)
  = Panic "runtime error: invalid memory address or nil pointer dereference"
  ∧ Some Demo.drv_ok ≠ None
  ∧ sqlDrivers (init_state 0) !! "d"%string = None.
Proof. split; [vm_compute; reflexivity|]. split; [discriminate|reflexivity]. Qed.

Lemma registration_contract_witness :
  (∃ m, RegisterSQLDriver "d" (Some Demo.drv_ok) []
          (Demo.registered (Demo.strat_fixed "host=a") Demo.drv_ok) = Panic m)
  ∧ (∃ m, RegisterSQLDriver "e" (Some Demo.drv_ok)
            [WithDriverOptions {["sslmode" := "disable"]}; None]
            (Demo.registered (Demo.strat_fixed "host=a") Demo.drv_ok) = Panic m)
  ∧ (∃ s', RegisterSQLDriver "d" (Some Demo.drv_ok) [] (init_state 0) = Done s'
           ∧ ∀ ops, sqlDrivers (exec_all GoURL.net Demo.close_failing ops s')
                      !! "d"%string
                    = sqlDrivers s' !! "d"%string).
Proof.
  destruct (registration_contract GoURL.net Demo.close_failing)
    as (Hpanic & Hstore & _).
  split_and!.
  - apply Hpanic. right. left. eexists. vm_compute. reflexivity.
  - apply Hpanic. right. right. apply elem_of_cons. right. apply elem_of_cons. by left.
  - destruct (Hstore "d"%string Demo.drv_ok [] (init_state 0))
      as (s' & Hs' & _ & _ & _ & _ & Hkeep).
    + vm_compute; reflexivity.
    + exists s'. by split.
Defined.

Lemma hdriver_Open_watch_error_witness :
  let s := Demo.registered Demo.strat_failing Demo.drv_ok in
  ∃ s', hdriver_Open GoURL.net "strat://d/path" s
        = (Done (None, Some (ExternalError "no such file")), s')
        ∧ cgroup s' = cgroup s.
Proof.
  intros s.
  destruct (hdriver_Open_watch_error GoURL.net "strat://d/path"
              (mkURL "strat" "" "" "d" "/path" "" "")
              Demo.strat_failing (mkDriverInstance Demo.drv_ok ∅)
              "" 0 "no such file" 0 s) as (s' & Ho & Hc & _);
    try (vm_compute; reflexivity).
  exists s'. by split.
Defined.

(** ** Further properties of the package *)

Section MoreProperties.
Context {World : Type}.
Context (net : NetURL).
Context (conn_Close : Conn → World → option string * World).

Implicit Types (cg : @chanGroup World) (r : @runtime World) (s : @state World).
Implicit Types (cgs : gmap string (@chanGroup World)) (h : list managedConn).

(** *** Folding options into a map *)

Lemma fold_insert_lookup {V W : Type} (f : V → W) (base : gmap string W)
    (opts : gmap string V) (k : string) :
  map_fold (λ k v acc, <[k := f v]> acc) base opts !! k
  = match opts !! k with
    | Some v => Some (f v)
    | None => base !! k
    end.
Proof.
  induction opts as [|i x m Hi IH] using map_ind.
  - by rewrite map_fold_empty, lookup_empty.
  - rewrite map_fold_insert_L; [|intros; by apply insert_insert_ne|done].
    destruct (decide (i = k)) as [->|Hne].
    + by rewrite !lookup_insert_eq.
    + by rewrite !lookup_insert_ne.
Qed.

(** X1.  [WithDriverOptions opts] is a function, never [nil]; it keeps
    the driver and gives an option map in which every key of [opts] has
    the value of [opts], and every other key the value it had. *)
Theorem WithDriverOptions_lookup (opts : gmap string string) :
  ∃ f : @driverInstance World → driverInstance,
    WithDriverOptions opts = Some f
    ∧ ∀ d k, driver (f d) = driver d
             ∧ options (f d) !! k
               = match opts !! k with
                 | Some v => Some v
                 | None => options d !! k
                 end.
Proof.
  eexists. split; [done|]. intros d k. split; [done|]. cbn [options].
  exact (fold_insert_lookup id (options d) opts k).
Qed.

Lemma fold_options_lookup (ms : list (gmap string string))
    (d : @driverInstance World) :
  ∃ di, apply_options d (WithDriverOptions <$> ms) = Done di
        ∧ driver di = driver d
        ∧ ∀ k, options di !! k
               = foldl (λ acc m, match m !! k with Some v => Some v | None => acc end)
                   (options d !! k) ms.
Proof.
  revert d. induction ms as [|m ms IH]; intros d; [by eexists|].
  cbn [fmap list_fmap apply_options WithDriverOptions].
  destruct (IH (mkDriverInstance (driver d)
                  (map_fold (λ k v acc, <[k := v]> acc) (options d) m)))
    as (di & -> & Hd & Ho).
  exists di. split; [done|]. split; [done|]. intros k. rewrite Ho. cbn [options foldl].
  f_equal. exact (fold_insert_lookup id (options d) m k).
Qed.

(** X2.  A driver registered under a free name with a list of
    [WithDriverOptions] is stored with that driver, and each option key
    has the value of the last map in the list that binds it; a key no
    map binds is absent. *)
Theorem RegisterSQLDriver_options name (d : @Driver World)
    (ms : list (gmap string string)) s :
  sqlDrivers s !! name = None →
  ∃ s' di, RegisterSQLDriver name (Some d) (WithDriverOptions <$> ms) s = Done s'
           ∧ sqlDrivers s' !! name = Some di
           ∧ driver di = d
           ∧ ∀ k, options di !! k = last_binding k ms.
Proof.
  intros Hfree. unfold RegisterSQLDriver. rewrite Hfree.
  destruct (fold_options_lookup ms (mkDriverInstance d ∅)) as (di & -> & Hd & Ho).
  eexists _, di. split; [done|]. cbn [sqlDrivers set_sqlDrivers].
  rewrite lookup_insert_eq. split; [done|]. split; [done|].
  intros k. rewrite Ho. cbn [options]. by rewrite lookup_empty.
Qed.

(** X3.  When the driver has options and the connection string and its
    query parse, [mergeConnectionStringOptions] returns the parsed URL
    with a new raw query and no error; the query is the encoding of the
    parsed parameters in which every option key is bound to exactly its
    option value and every other key keeps its values. *)
Theorem merge_overrides dsn (opts : gmap string string) u vals :
  size opts ≠ 0 →
  url_ParseRequestURI net dsn = inl u →
  url_ParseQuery net (RawQuery u) = (vals, None) →
  ∃ merged : Values,
    mergeConnectionStringOptions net dsn opts
    = (URL_String net (set_RawQuery (Values_Encode net merged) u), None)
    ∧ ∀ k, merged !! k = match opts !! k with
                         | Some v => Some [v]
                         | None => vals !! k
                         end.
Proof.
  intros Hnz Hu Hq. unfold mergeConnectionStringOptions.
  rewrite decide_False by done. rewrite Hu, Hq.
  eexists. split; [done|]. intros k. unfold Values_Set.
  exact (fold_insert_lookup (λ v, [v]) vals opts k).
Qed.

(** *** Listings *)

Lemma elem_of_insert_String x k l :
  x ∈ insert_String k l ↔ x = k ∨ x ∈ l.
Proof.
  induction l as [|y l IH]; cbn.
  - rewrite list_elem_of_singleton. split; [by left|]. intros [?|H]; [done|].
    by apply elem_of_nil in H.
  - destruct (String.leb k y).
    + by rewrite elem_of_cons.
    + rewrite !elem_of_cons, IH. tauto.
Qed.

Lemma length_insert_String k l : length (insert_String k l) = S (length l).
Proof.
  induction l as [|y l IH]; cbn; [done|].
  destruct (String.leb k y); cbn; [done|]. by rewrite IH.
Qed.

Lemma NoDup_insert_String k l :
  k ∉ l → NoDup l → NoDup (insert_String k l).
Proof.
  induction l as [|y l IH]; cbn; intros Hk Hl.
  - apply NoDup_singleton.
  - apply not_elem_of_cons in Hk as [Hky Hkl].
    apply NoDup_cons in Hl as [Hy Hl].
    destruct (String.leb k y).
    + apply NoDup_cons. split; [|by apply NoDup_cons].
      rewrite elem_of_cons. tauto.
    + apply NoDup_cons. split; [|by apply IH].
      rewrite elem_of_insert_String. intros [->|?]; done.
Qed.

Lemma HdRel_insert_String a k l :
  String_le a k → HdRel String_le a l → HdRel String_le a (insert_String k l).
Proof.
  intros Hak Hal. destruct l as [|y l]; cbn; [by constructor|].
  destruct (String.leb k y); constructor; [done|].
  by apply HdRel_inv in Hal.
Qed.

Lemma Sorted_insert_String k l :
  Sorted String_le l → Sorted String_le (insert_String k l).
Proof.
  induction 1 as [|y l Hl IH Hy]; cbn.
  - by repeat constructor.
  - destruct (String.leb k y) eqn:Hky.
    + constructor; [by constructor|]. by constructor.
    + constructor; [done|]. apply HdRel_insert_String; [|done].
      destruct (String.leb_total k y) as [H|H]; [congruence|done].
Qed.

Lemma sort_Strings_spec (l : list string) :
  Sorted String_le (sort_Strings l)
  ∧ (NoDup l → NoDup (sort_Strings l))
  ∧ (∀ x, x ∈ sort_Strings l ↔ x ∈ l)
  ∧ length (sort_Strings l) = length l.
Proof.
  induction l as [|k l (IH1 & IH2 & IH3 & IH4)]; cbn.
  - split_and!; [constructor|done|done|done].
  - change (foldr insert_String [] l) with (sort_Strings l). split_and!.
    + by apply Sorted_insert_String.
    + intros [Hk Hl]%NoDup_cons. apply NoDup_insert_String; [|by apply IH2].
      by rewrite IH3.
    + intros x. rewrite elem_of_insert_String, elem_of_cons, IH3. done.
    + by rewrite length_insert_String, IH4.
Qed.

Lemma keys_listing {A : Type} (m : gmap string A) :
  Sorted String_le (sort_Strings (map_to_list m).*1)
  ∧ NoDup (sort_Strings (map_to_list m).*1)
  ∧ (∀ n, n ∈ sort_Strings (map_to_list m).*1 ↔ is_Some (m !! n))
  ∧ length (sort_Strings (map_to_list m).*1) = size m.
Proof.
  destruct (sort_Strings_spec (map_to_list m).*1) as (H1 & H2 & H3 & H4).
  split_and!; [done|apply H2, NoDup_fst_map_to_list| |].
  - intros n. rewrite H3, list_elem_of_fmap. split.
    + intros ([k v] & -> & Hin). apply elem_of_map_to_list in Hin. by eexists.
    + intros [v Hv]. exists (n, v). split; [done|]. by apply elem_of_map_to_list.
  - by rewrite H4, length_fmap, length_map_to_list.
Qed.

(** X4.  [SQLDrivers] and [Strategies] return the registered names, each
    once, in increasing byte order: a name is in the list exactly when
    it is bound in the registry, and the list is as long as the registry
    is large. *)
Theorem listings_sorted_and_exact s :
  (Sorted String_le (SQLDrivers s)
   ∧ NoDup (SQLDrivers s)
   ∧ (∀ n, n ∈ SQLDrivers s ↔ is_Some (sqlDrivers s !! n))
   ∧ length (SQLDrivers s) = size (sqlDrivers s))
  ∧ (Sorted String_le (Strategies s)
     ∧ NoDup (Strategies s)
     ∧ (∀ n, n ∈ Strategies s ↔ is_Some (strategies s !! n))
     ∧ length (Strategies s) = size (strategies s)).
Proof. split; apply keys_listing. Qed.

(** *** The registries and the dispatcher *)

(** X5.  An [Open] on a parseable address that has no monitor fails with
    [ErrUnsupportedStrategy] when the scheme is not registered, whatever
    the host, and with [ErrUnknownDriver] when the scheme is registered
    and the host is not; in both cases the state is what it was, so
    [Watch] was not called and no monitor was made. *)
Theorem hdriver_Open_unregistered name uri s :
  url_Parse net name = inl uri →
  cgroup s !! name = None →
  (strategies s !! Scheme uri = None →
   hdriver_Open net name s = (Done (None, Some ErrUnsupportedStrategy), s))
  ∧ (is_Some (strategies s !! Scheme uri) →
     sqlDrivers s !! Host uri = None →
     hdriver_Open net name s = (Done (None, Some ErrUnknownDriver), s)).
Proof.
  intros Hp Hc. unfold hdriver_Open. rewrite Hp, Hc. split.
  - by intros ->.
  - intros [st ->] ->. done.
Qed.

Lemma hdriver_Open_reuse_eq name cg s :
  cgroup s !! name = Some cg →
  hdriver_Open net name s
  = match url_Parse net name with
    | inr e => (Done (None, Some (UrlError e)), s)
    | inl _ => monitor_Open net name cg s
    end.
Proof. intros Hc. unfold hdriver_Open. rewrite Hc. by destruct (url_Parse net name). Qed.

(** X6.  [unregisterAll] empties both listings and touches nothing else;
    afterwards any name can be registered again (a driver under any
    name, exactly when none of its options is [nil]), an address that
    has a monitor is served as before by that monitor and its driver, and
    a parseable address without a monitor fails with
    [ErrUnsupportedStrategy]. *)
Theorem unregisterAll_resets s :
  SQLDrivers (unregisterAll s) = [] ∧ Strategies (unregisterAll s) = []
  ∧ cgroup (unregisterAll s) = cgroup s ∧ rt (unregisterAll s) = rt s
  ∧ (∀ name d opts,
       (∃ s', RegisterSQLDriver name (Some d) opts (unregisterAll s) = Done s')
       ↔ None ∉ opts)
  ∧ (∀ name st, ∃ s', RegisterStrategy name (Some st) (unregisterAll s) = Done s')
  ∧ (∀ name cg, cgroup s !! name = Some cg →
       hdriver_Open net name (unregisterAll s)
       = ((hdriver_Open net name s).1, unregisterAll (hdriver_Open net name s).2))
  ∧ (∀ name uri, url_Parse net name = inl uri → cgroup s !! name = None →
       hdriver_Open net name (unregisterAll s)
       = (Done (None, Some ErrUnsupportedStrategy), unregisterAll s)).
Proof.
  split_and!.
  - unfold SQLDrivers, unregisterAll.
    cbn [sqlDrivers strategies set_sqlDrivers set_strategies].
    by rewrite map_to_list_empty.
  - unfold Strategies, unregisterAll.
    cbn [sqlDrivers strategies set_sqlDrivers set_strategies].
    by rewrite map_to_list_empty.
  - done.
  - done.
  - intros name d opts. unfold RegisterSQLDriver.
    cbn [unregisterAll sqlDrivers set_strategies set_sqlDrivers].
    rewrite lookup_empty.
    pose proof (apply_options_panics (mkDriverInstance d ∅) opts) as Hnil.
    destruct (apply_options _ opts) as [di|m].
    + split; [|by eexists]. intros _ Hin. apply Hnil in Hin as [m ?]. done.
    + split; [by intros [s' ?]|]. intros Hn. destruct Hn. apply Hnil. by eexists.
  - intros name st. unfold RegisterStrategy. cbn. rewrite lookup_empty. by eexists.
  - intros name cg Hc. rewrite (hdriver_Open_reuse_eq name cg s Hc).
    rewrite (hdriver_Open_reuse_eq name cg (unregisterAll s)) by done.
    destruct (url_Parse net name); [|done].
    unfold monitor_Open. cbn. by destruct (cg_Open net cg (rt s)) as [[res cg'] r'].
  - intros name uri Hp Hc. unfold hdriver_Open. rewrite Hp.
    cbn [unregisterAll cgroup set_strategies set_sqlDrivers strategies].
    by rewrite Hc, lookup_empty.
Qed.

(** *** [remove] *)

Lemma remove_first_absent p (l : list nat) : p ∉ l → remove_first p l = l.
Proof.
  induction l as [|c l IH]; [done|]. intros [Hc Hl]%not_elem_of_cons. cbn.
  rewrite decide_False by done. by rewrite IH.
Qed.

Lemma remove_first_length p (l : list nat) :
  p ∈ l → length (remove_first p l) + 1 = length l.
Proof.
  induction l as [|c l IH]; [by intros ?%elem_of_nil|]. cbn.
  destruct (decide (c = p)); [intros _; lia|].
  intros [?|Hin]%elem_of_cons; [congruence|]. cbn. rewrite <- (IH Hin). lia.
Qed.

Lemma remove_first_elem p (l : list nat) q :
  NoDup l → q ∈ remove_first p l ↔ q ∈ l ∧ q ≠ p.
Proof.
  induction l as [|c l IH]; cbn.
  - intros _. split; [by intros ?%elem_of_nil|by intros [?%elem_of_nil _]].
  - intros [Hc Hl]%NoDup_cons. destruct (decide (c = p)) as [->|Hne].
    + rewrite elem_of_cons. split.
      * intros Hq. split; [by right|]. by intros ->.
      * intros [[?|?] ?]; done.
    + rewrite !elem_of_cons, IH by done. split.
      * intros [->|[? ?]]; [by split; [left|]|by split; [right|]].
      * intros [[->|?] ?]; [by left|by right].
Qed.

Lemma remove_first_sublist p (l : list nat) : remove_first p l `sublist_of` l.
Proof.
  induction l as [|c l IH]; cbn; [done|].
  destruct (decide (c = p)); [by apply sublist_cons|by apply sublist_skip].
Qed.

Lemma remove_first_app_fresh p (l : list nat) :
  p ∉ l → remove_first p (l ++ [p]) = l.
Proof.
  induction l as [|c l IH]; cbn.
  - intros _. by rewrite decide_True.
  - intros [Hc Hl]%not_elem_of_cons. rewrite decide_False by done. by rewrite IH.
Qed.

Lemma remove_first_split p (l1 l2 : list nat) :
  p ∉ l1 → remove_first p (l1 ++ p :: l2) = l1 ++ l2.
Proof.
  induction l1 as [|c l1 IH]; cbn.
  - intros _. by rewrite decide_True.
  - intros [Hc Hl]%not_elem_of_cons. rewrite decide_False by done. by rewrite IH.
Qed.

(** X7.  [remove] cuts the first slot that holds the pointer, and that
    slot only, and keeps the rest in order: when the slice is [l1], the
    pointer, [l2], with the pointer not in [l1], what is left is [l1]
    followed by [l2], whether or not the pointer is in [l2] again.  It
    changes no other field.  On a pointer that is not outstanding it
    does nothing; on one that is, the slice gets one shorter; and when no
    pointer is twice in the slice, the pointer is gone, all others stay,
    and a second [remove] does nothing. *)
Theorem remove_cuts_one p cg :
  remove p cg = set_conns (conns (remove p cg)) cg
  ∧ conns (remove p cg) `sublist_of` conns cg
  ∧ (∀ l1 l2, conns cg = l1 ++ p :: l2 → p ∉ l1 →
       conns (remove p cg) = l1 ++ l2)
  ∧ (p ∉ conns cg → remove p cg = cg)
  ∧ (p ∈ conns cg → length (conns (remove p cg)) + 1 = length (conns cg))
  ∧ (NoDup (conns cg) →
     (∀ q, q ∈ conns (remove p cg) ↔ q ∈ conns cg ∧ q ≠ p)
     ∧ remove p (remove p cg) = remove p cg).
Proof.
  split_and!.
  - done.
  - apply remove_first_sublist.
  - intros l1 l2 Hc Hp. unfold remove. cbn [conns set_conns].
    rewrite Hc. by apply remove_first_split.
  - intros Hp. unfold remove. rewrite remove_first_absent by done. by destruct cg.
  - apply remove_first_length.
  - intros Hnd. split.
    + intros q. by apply remove_first_elem.
    + assert (Hgone : p ∉ remove_first p (conns cg)).
      { rewrite remove_first_elem by done. by intros [_ ?]. }
      unfold remove. cbn [conns set_conns].
      by rewrite (remove_first_absent _ _ Hgone).
Qed.

(** X8.  When [chanGroup.Open] returns a wrapper on a monitor whose
    outstanding pointers are all allocated, the wrapper is a new object:
    not invalidated, bound to the monitor's scope, and the last entry of
    the slice; the wrappers that were there are untouched; and a
    [remove] of the new pointer gives back the monitor as it was. *)
Theorem Open_then_remove cg r p :
  Forall (λ q, q < length (mconns r)) (conns cg) →
  (cg_Open net cg r).1.1 = (Some (Managed p), None) →
  p = length (mconns r)
  ∧ (p ∉ conns cg)
  ∧ conns (cg_Open net cg r).1.2 = conns cg ++ [p]
  ∧ (∃ conn, mconns (cg_Open net cg r).2
             = mconns r ++ [mkManagedConn (ctx cg) conn false])
  ∧ remove p (cg_Open net cg r).1.2 = cg.
Proof.
  intros Hall.
  destruct (cg_Open_spec net cg r) as [junk msg Hm|dsn conn err w Hm Hd|dsn conn w Hm Hd];
    cbn [fst snd].
  - discriminate.
  - destruct conn; discriminate.
  - intros [= <-].
    assert (Hfresh : length (mconns r) ∉ conns cg).
    { intros Hin. rewrite Forall_forall in Hall. specialize (Hall _ Hin). lia. }
    split_and!; try done.
    + by exists conn.
    + unfold remove. cbn [conns set_conns].
      rewrite remove_first_app_fresh by done. by destruct cg.
Qed.

(** *** The loop over a sequence of events *)

Lemma run_step_Recv_goes_on v cg r :
  (run_step conn_Close (Recv v) cg r).1.1 = true
  ∧ value (run_step conn_Close (Recv v) cg r).1.2 = v.
Proof.
  unfold run_step. destruct (decide (v = value cg)) as [->|Hne]; [done|].
  by rewrite valueChanged_eq.
Qed.

(** X9.  The loop ends at the first cancellation of the parent scope:
    what is delivered after it has no effect.  At that point it cancels
    the monitor's active scope and writes one log line; the monitor
    keeps its value and its outstanding connections, and no wrapper is
    invalidated or closed. *)
Theorem run_stops_at_ParentDone evs1 evs2 cg r :
  run conn_Close (evs1 ++ ParentDone :: evs2) cg r
  = run conn_Close (evs1 ++ [ParentDone]) cg r
  ∧ ctx (run conn_Close (evs1 ++ [ParentDone]) cg r).1
    ∈ cancelled (run conn_Close (evs1 ++ [ParentDone]) cg r).2
  ∧ run conn_Close (ParentDone :: evs2) cg r
    = (cg, mkRuntime (mconns r) (ctxNext r) (ctx cg :: cancelled r) (world r)
             (ELog "cancelling chanGroup context" :: ECancel (ctx cg) :: trace r)).
Proof.
  split_and!; [| |done].
  - revert cg r. induction evs1 as [|ev evs1 IH]; intros cg r; [done|].
    cbn [app run]. destruct (run_step conn_Close ev cg r) as [[[] cg'] r']; [|done].
    apply IH.
  - revert cg r. induction evs1 as [|ev evs1 IH]; intros cg r.
    + cbn. by left.
    + cbn [app run]. destruct ev as [|v].
      * cbn. by left.
      * pose proof (run_step_Recv_goes_on v cg r) as [Hgo _].
        destruct (run_step conn_Close (Recv v) cg r) as [[b cg'] r'].
        cbn in Hgo. subst b. apply IH.
Qed.



(** *** What every run keeps *)

Lemma wf_parts_grow cgs h nx cn h' nx' :
  wf_parts cgs h nx cn →
  (∀ p mc, h !! p = Some mc → h' !! p = Some mc) →
  nx ≤ nx' →
  wf_parts cgs h' nx' cn.
Proof.
  intros (Hm & Hd & Hc) Hh Hnx. split_and!; [|done|].
  - intros name cg Hl. destruct (Hm name cg Hl) as (H1 & H2 & H3 & H4).
    split_and!; [done| |lia|done].
    intros p Hp. destruct (H2 p Hp) as (mc & Hmc & ?). exists mc. split; [by apply Hh|done].
  - intros c Hin. specialize (Hc c Hin). lia.
Qed.

Lemma wf_parts_update cgs h nx cn name cg cg' :
  wf_parts cgs h nx cn →
  cgs !! name = Some cg →
  ctx cg' = ctx cg →
  NoDup (conns cg') →
  (∀ p, p ∈ conns cg' →
     ∃ mc, h !! p = Some mc ∧ mc_reset mc = false ∧ mc_ctx mc = ctx cg') →
  wf_parts (<[name := cg']> cgs) h nx cn.
Proof.
  intros (Hm & Hd & Hc) Hl Hctx Hnd Hp. split_and!; [| |done].
  - intros n c. destruct (decide (name = n)) as [<-|Hne].
    + rewrite lookup_insert_eq. intros [= <-].
      destruct (Hm name cg Hl) as (_ & _ & H3 & H4).
      split_and!; [done|done|by rewrite Hctx|by rewrite Hctx].
    + rewrite lookup_insert_ne by done. apply Hm.
  - intros n1 n2 c1 c2 Hne.
    destruct (decide (name = n1)) as [<-|Hn1], (decide (name = n2)) as [<-|Hn2];
      try done.
    + rewrite lookup_insert_eq, lookup_insert_ne by done. intros [= <-] H.
      rewrite Hctx. by apply (Hd name n2).
    + rewrite lookup_insert_ne, lookup_insert_eq by done. intros H [= <-].
      rewrite Hctx. by apply (Hd n1 name).
    + rewrite !lookup_insert_ne by done. by apply Hd.
Qed.

Lemma wf_parts_new cgs h nx cn name cg0 :
  wf_parts cgs h nx cn →
  cgs !! name = None →
  ctx cg0 = nx →
  conns cg0 = [] →
  wf_parts (<[name := cg0]> cgs) h (S nx) cn.
Proof.
  intros (Hm & Hd & Hc) Hl Hctx Hcs. split_and!.
  - intros n c. destruct (decide (name = n)) as [<-|Hne].
    + rewrite lookup_insert_eq. intros [= <-]. unfold wf_monitor. rewrite Hcs, Hctx.
      split_and!; [constructor|by intros p ?%elem_of_nil|lia|].
      intros Hin. specialize (Hc _ Hin). lia.
    + rewrite lookup_insert_ne by done. intros Hn.
      destruct (Hm n c Hn) as (H1 & H2 & H3 & H4). split_and!; [done|done|lia|done].
  - intros n1 n2 c1 c2 Hne.
    destruct (decide (name = n1)) as [<-|Hn1], (decide (name = n2)) as [<-|Hn2];
      try done.
    + rewrite lookup_insert_eq, lookup_insert_ne by done. intros [= <-] H.
      destruct (Hm n2 c2 H) as (_ & _ & H3 & _). lia.
    + rewrite lookup_insert_ne, lookup_insert_eq by done. intros H [= <-].
      destruct (Hm n1 c1 H) as (_ & _ & H3 & _). lia.
    + rewrite !lookup_insert_ne by done. by apply Hd.
  - intros c Hin. specialize (Hc c Hin). lia.
Qed.

Lemma wf_parts_swap cgs h nx cn name cg cg' :
  wf_parts cgs h nx cn →
  cgs !! name = Some cg →
  ctx cg' = nx →
  conns cg' = [] →
  wf_parts (<[name := cg']> cgs)
    (foldl (λ h c, alter invalidate c h) h (conns cg)) (S nx) (ctx cg :: cn).
Proof.
  intros (Hm & Hd & Hc) Hl Hctx Hcs.
  destruct (Hm name cg Hl) as (_ & Hcgp & Hcgx & Hcgc).
  split_and!.
  - intros n c. destruct (decide (name = n)) as [<-|Hne].
    + rewrite lookup_insert_eq. intros [= <-]. unfold wf_monitor. rewrite Hcs, Hctx.
      split_and!; [constructor|by intros p ?%elem_of_nil|lia|].
      intros [?|Hin]%elem_of_cons; [lia|]. specialize (Hc _ Hin). lia.
    + rewrite lookup_insert_ne by done. intros Hn.
      destruct (Hm n c Hn) as (H1 & H2 & H3 & H4).
      pose proof (Hd name n cg c Hne Hl Hn) as Hdiff.
      split_and!; [done| |lia|].
      * intros p Hp. destruct (H2 p Hp) as (mc & Hmc & Hr & Hx).
        exists mc. split; [|done]. rewrite invalidate_all_lookup.
        rewrite decide_False; [done|]. intros Hin.
        destruct (Hcgp p Hin) as (mc' & Hmc' & _ & Hx'). congruence.
      * intros [?|Hin]%elem_of_cons; [congruence|done].
  - intros n1 n2 c1 c2 Hne.
    destruct (decide (name = n1)) as [<-|Hn1], (decide (name = n2)) as [<-|Hn2];
      try done.
    + rewrite lookup_insert_eq, lookup_insert_ne by done. intros [= <-] H.
      destruct (Hm n2 c2 H) as (_ & _ & H3 & _). lia.
    + rewrite lookup_insert_ne, lookup_insert_eq by done. intros H [= <-].
      destruct (Hm n1 c1 H) as (_ & _ & H3 & _). lia.
    + rewrite !lookup_insert_ne by done. by apply Hd.
  - intros c [->|Hin]%elem_of_cons; [lia|]. specialize (Hc c Hin). lia.
Qed.

Lemma wf_parts_open cgs name cg r res cg' r' :
  wf_parts cgs (mconns r) (ctxNext r) (cancelled r) →
  cgs !! name = Some cg →
  cg_Open net cg r = (res, cg', r') →
  wf_parts (<[name := cg']> cgs) (mconns r') (ctxNext r') (cancelled r').
Proof.
  intros Hwf Hl.
  destruct (cg_Open_spec net cg r) as [junk msg Hmg|dsn conn err w Hmg Hdr|dsn conn w Hmg Hdr];
    intros [= <- <- <-].
  - by rewrite insert_id.
  - by rewrite insert_id.
  - cbn [mconns set_mconns emit set_world ctxNext cancelled].
    destruct Hwf as (Hm & Hd & Hc). destruct (Hm name cg Hl) as (H1 & H2 & H3 & H4).
    assert (Hfresh : length (mconns r) ∉ conns cg).
    { intros Hin. destruct (H2 _ Hin) as (mc & Hmc & _).
      apply lookup_lt_Some in Hmc. lia. }
    eapply wf_parts_update; [|done|done| |].
    + eapply wf_parts_grow; [by split_and!| |done].
      intros p mc Hp. by apply lookup_app_l_Some.
    + cbn. apply NoDup_app. split_and!; [done| |apply NoDup_singleton].
      intros p Hp Hq%list_elem_of_singleton. by subst.
    + cbn. intros p [Hp|Hq%list_elem_of_singleton]%elem_of_app; [|subst p].
      * destruct (H2 p Hp) as (mc & Hmc & ?). exists mc.
        split; [by apply lookup_app_l_Some|done].
      * exists (newManagedConn (ctx cg) conn). split; [|done].
        rewrite lookup_app_r by done. by rewrite Nat.sub_diag.
Qed.

Lemma init_wf (w : World) : wf_state (init_state w).
Proof.
  split_and!.
  - intros name cg. cbn. by rewrite lookup_empty.
  - intros n1 n2 c1 c2 _. cbn. by rewrite lookup_empty.
  - intros c ?%elem_of_nil. done.
Qed.

Lemma hdriver_Open_wf name s :
  wf_state s → wf_state (hdriver_Open net name s).2.
Proof.
  intros Hwf. unfold wf_state in *.
  destruct (hdriver_Open_cases net name s)
    as [e Hp|uri cg res cg' r' Hp Hc Ho|uri Hp Hc Hs|uri strategy Hp Hc Hs Hd
       |uri strategy sqlDrv v vs e w Hp Hc Hs Hd Hw
       |uri strategy sqlDrv v vs w m r3 Hp Hc Hs Hd Hw Hv
       |uri strategy sqlDrv v vs w cg0 r3 res cg' r' Hp Hc Hs Hd Hw Hv Ho];
    cbn [snd rt cgroup set_rt set_cgroup]; try done.
  - by eapply wf_parts_open.
  - apply parseValues_logs in Hv as (_ & Hh & _ & Hx & Hcn & _).
    rewrite Hh, Hx, Hcn. cbn. eapply wf_parts_grow; [done|done|lia].
  - apply parseValues_logs in Hv as (Hcg0 & Hh & _ & Hx & Hcn & _).
    specialize (Hcg0 cg0 eq_refl).
    eapply (wf_parts_open _ name cg0 (emit (EGo name) r3)); [|by rewrite lookup_insert_eq|done].
    cbn [emit mconns ctxNext cancelled]. rewrite Hh, Hx, Hcn. cbn.
    apply wf_parts_new; [done|done|by rewrite Hcg0|by rewrite Hcg0].
Qed.

Lemma exec_wf o s : wf_state s → wf_state (exec net conn_Close o s).
Proof.
  intros Hwf. destruct o as [name drv opts|name st|name|name v]; cbn [exec].
  - unfold RegisterSQLDriver. destruct drv as [d|]; [|done].
    destruct (sqlDrivers s !! name); [done|].
    by destruct (apply_options _ opts).
  - unfold RegisterStrategy. destruct st as [st|]; [|done].
    by destruct (strategies s !! name).
  - by apply hdriver_Open_wf.
  - destruct (cgroup s !! name) as [cg|] eqn:Hc; [|done].
    unfold run_step. destruct (decide (v = value cg)) as [->|Hne].
    + unfold wf_state in *. cbn. by rewrite insert_id.
    + rewrite valueChanged_eq. unfold wf_state in *.
      cbn [rt cgroup set_rt set_cgroup log emit mconns ctxNext cancelled].
      rewrite reset_loop_mconns.
      destruct (reset_loop_ctx conn_Close (forceKill cg) (conns cg)
                  (WithCancel (parentCtx cg) (cancel (ctx cg) (rt s))).2) as [-> ->].
      cbn. by apply wf_parts_swap.
Qed.

Lemma exec_all_wf ops s :
  wf_state s → wf_state (exec_all net conn_Close ops s).
Proof.
  revert s. induction ops as [|o ops IH]; intros s Hwf; [done|].
  cbn. by apply IH, exec_wf.
Qed.


(** X12.  Over any run of the process, an update that reaches the loop
    of one address leaves the monitor of every other address as it is,
    and the wrappers outstanding there as they are: a swap on one
    monitor never invalidates a connection of another. *)
Theorem update_leaves_other_monitors (w : World) ops name v other cg2 :
  other ≠ name →
  cgroup (exec_all net conn_Close ops (init_state w)) !! other = Some cg2 →
  cgroup (exec net conn_Close (OpUpdate name v)
            (exec_all net conn_Close ops (init_state w))) !! other = Some cg2
  ∧ ∀ p, p ∈ conns cg2 →
         mconns (rt (exec net conn_Close (OpUpdate name v)
                       (exec_all net conn_Close ops (init_state w)))) !! p
         = mconns (rt (exec_all net conn_Close ops (init_state w))) !! p.
Proof.
  intros Hne Hl2.
  pose proof (exec_all_wf ops (init_state w) (init_wf w)) as Hwf.
  set (s := exec_all net conn_Close ops (init_state w)) in *.
  destruct Hwf as (Hm & Hd & Hc). cbn [exec].
  destruct (cgroup s !! name) as [cg|] eqn:Hl; [|done].
  unfold run_step. destruct (decide (v = value cg)) as [->|Hv].
  - cbn. by rewrite lookup_insert_ne.
  - rewrite valueChanged_eq. cbn [rt cgroup set_rt set_cgroup log emit mconns].
    rewrite lookup_insert_ne by done. split; [done|]. intros p Hp.
    rewrite reset_loop_mconns, invalidate_all_lookup. cbn [WithCancel cancel emit snd mconns].
    rewrite decide_False; [done|]. intros Hin.
    destruct (Hm name cg Hl) as (_ & H2 & _). destruct (H2 p Hin) as (mc & Hmc & _ & Hx).
    destruct (Hm other cg2 Hl2) as (_ & H2' & _).
    destruct (H2' p Hp) as (mc' & Hmc' & _ & Hx').
    apply (Hd other name cg2 cg); [done..|congruence].
Qed.

(** *** Wrappers over time *)

Lemma invalidate_all_keeps (l : list nat) h p mc :
  h !! p = Some mc →
  ∃ mc', foldl (λ h c, alter invalidate c h) h l !! p = Some mc'
         ∧ mc_conn mc' = mc_conn mc ∧ mc_ctx mc' = mc_ctx mc
         ∧ (mc_reset mc = true → mc_reset mc' = true).
Proof.
  intros Hp. rewrite invalidate_all_lookup, Hp.
  destruct (decide (p ∈ l)); eexists; (split; [done|]); done.
Qed.

Lemma cg_Open_mconns cg r :
  ∃ tail, mconns (cg_Open net cg r).2 = mconns r ++ tail
          ∧ ctxNext (cg_Open net cg r).2 = ctxNext r
          ∧ cancelled (cg_Open net cg r).2 = cancelled r.
Proof.
  destruct (cg_Open_spec net cg r) as [junk msg Hmg|dsn conn err w Hmg Hdr|dsn conn w Hmg Hdr];
    cbn.
  - exists []. by rewrite app_nil_r.
  - exists []. by rewrite app_nil_r.
  - by eexists.
Qed.

Lemma hdriver_Open_mconns name s :
  ∃ tail, mconns (rt (hdriver_Open net name s).2) = mconns (rt s) ++ tail
          ∧ cancelled (rt (hdriver_Open net name s).2) = cancelled (rt s).
Proof.
  destruct (hdriver_Open_cases net name s)
    as [e Hp|uri cg res cg' r' Hp Hc Ho|uri Hp Hc Hs|uri strategy Hp Hc Hs Hd
       |uri strategy sqlDrv v vs e w Hp Hc Hs Hd Hw
       |uri strategy sqlDrv v vs w m r3 Hp Hc Hs Hd Hw Hv
       |uri strategy sqlDrv v vs w cg0 r3 res cg' r' Hp Hc Hs Hd Hw Hv Ho];
    cbn [snd rt set_rt].
  - exists []. by rewrite app_nil_r.
  - destruct (cg_Open_mconns cg (rt s)) as (tail & Hh & _ & Hcn).
    rewrite Ho in Hh, Hcn. by exists tail.
  - exists []. by rewrite app_nil_r.
  - exists []. by rewrite app_nil_r.
  - exists []. by rewrite app_nil_r.
  - apply parseValues_logs in Hv as (_ & Hh & _ & _ & Hcn & _).
    exists []. by rewrite app_nil_r, Hh, Hcn.
  - apply parseValues_logs in Hv as (_ & Hh & _ & _ & Hcn & _).
    destruct (cg_Open_mconns cg0 (emit (EGo name) r3)) as (tail & Hh2 & _ & Hcn2).
    rewrite Ho in Hh2, Hcn2. cbn in Hh2, Hcn2. exists tail.
    by rewrite Hh2, Hcn2, Hh, Hcn.
Qed.

Lemma exec_keeps_wrappers o s p mc :
  mconns (rt s) !! p = Some mc →
  ∃ mc', mconns (rt (exec net conn_Close o s)) !! p = Some mc'
         ∧ mc_conn mc' = mc_conn mc ∧ mc_ctx mc' = mc_ctx mc
         ∧ (mc_reset mc = true → mc_reset mc' = true).
Proof.
  intros Hp. destruct o as [name drv opts|name st|name|name v]; cbn [exec].
  - unfold RegisterSQLDriver. destruct drv as [d|]; [|by exists mc].
    destruct (sqlDrivers s !! name); [by exists mc|].
    destruct (apply_options _ opts); by exists mc.
  - unfold RegisterStrategy. destruct st as [st|]; [|by exists mc].
    destruct (strategies s !! name); by exists mc.
  - destruct (hdriver_Open_mconns name s) as (tail & -> & _).
    exists mc. split; [by apply lookup_app_l_Some|done].
  - destruct (cgroup s !! name) as [cg|]; [|by exists mc].
    unfold run_step. destruct (decide (v = value cg)); [by exists mc|].
    rewrite valueChanged_eq. cbn [rt set_rt log emit mconns].
    rewrite reset_loop_mconns. by apply invalidate_all_keeps.
Qed.

(** X13.  Whatever the process does, a wrapper once allocated stays
    allocated under its pointer with the same underlying connection and
    the same scope, and once it is invalidated it stays invalidated. *)
Theorem wrappers_only_gain_the_flag ops s p mc :
  mconns (rt s) !! p = Some mc →
  ∃ mc', mconns (rt (exec_all net conn_Close ops s)) !! p = Some mc'
         ∧ mc_conn mc' = mc_conn mc ∧ mc_ctx mc' = mc_ctx mc
         ∧ (mc_reset mc = true → mc_reset mc' = true).
Proof.
  revert s mc. induction ops as [|o ops IH]; intros s mc Hp; [by exists mc|].
  cbn. destruct (exec_keeps_wrappers o s p mc Hp) as (mc1 & Hp1 & Hc1 & Hx1 & Hr1).
  destruct (IH _ mc1 Hp1) as (mc' & Hp' & Hc' & Hx' & Hr').
  exists mc'. split_and!; [done|congruence|congruence|auto].
Qed.

Lemma Forall_open_events_app (evs1 evs2 : list event) :
  Forall (λ e, is_open_event e = true) evs1 →
  Forall (λ e, is_open_event e = true) evs2 →
  Forall (λ e, is_open_event e = true) (evs1 ++ evs2).
Proof. intros. by apply Forall_app. Qed.

Lemma logs_are_open_events evs :
  Forall (λ e, is_log e = true) evs → Forall (λ e, is_open_event e = true) evs.
Proof. intros H. eapply Forall_impl; [exact H|]. by intros []. Qed.

Lemma cg_Open_events cg r :
  ∃ evs, trace (cg_Open net cg r).2 = evs ++ trace r
         ∧ Forall (λ e, is_open_event e = true) evs.
Proof.
  destruct (cg_Open_spec net cg r) as [junk msg Hmg|dsn conn err w Hmg Hdr|dsn conn w Hmg Hdr];
    cbn.
  - by exists [].
  - exists [EDriverOpen dsn]. by repeat constructor.
  - exists [EDriverOpen dsn]. by repeat constructor.
Qed.

(** X14.  [hdriver.Open] acts on the monitor of its own address only:
    the monitor of any other address is as before, every wrapper that
    was allocated is unchanged, no scope is cancelled, and the calls it
    makes are calls of [Watch] and of a driver, log lines and the start
    of a loop, never a [Reset] or a [Close]. *)
Theorem hdriver_Open_frame name s :
  (∀ n, n ≠ name → cgroup (hdriver_Open net name s).2 !! n = cgroup s !! n)
  ∧ (∀ p mc, mconns (rt s) !! p = Some mc →
             mconns (rt (hdriver_Open net name s).2) !! p = Some mc)
  ∧ cancelled (rt (hdriver_Open net name s).2) = cancelled (rt s)
  ∧ ∃ evs, trace (rt (hdriver_Open net name s).2) = evs ++ trace (rt s)
           ∧ Forall (λ e, is_open_event e = true) evs.
Proof.
  split_and!.
  - intros n Hne.
    destruct (hdriver_Open_cases net name s)
      as [e Hp|uri cg res cg' r' Hp Hc Ho|uri Hp Hc Hs|uri strategy Hp Hc Hs Hd
         |uri strategy sqlDrv v vs e w Hp Hc Hs Hd Hw
         |uri strategy sqlDrv v vs w m r3 Hp Hc Hs Hd Hw Hv
         |uri strategy sqlDrv v vs w cg0 r3 res cg' r' Hp Hc Hs Hd Hw Hv Ho];
      cbn [snd cgroup set_rt set_cgroup]; try done.
    + by rewrite lookup_insert_ne.
    + by rewrite !lookup_insert_ne.
  - intros p mc Hp. destruct (hdriver_Open_mconns name s) as (tail & -> & _).
    by apply lookup_app_l_Some.
  - by destruct (hdriver_Open_mconns name s) as (tail & _ & ->).
  - destruct (hdriver_Open_cases net name s)
      as [e Hp|uri cg res cg' r' Hp Hc Ho|uri Hp Hc Hs|uri strategy Hp Hc Hs Hd
         |uri strategy sqlDrv v vs e w Hp Hc Hs Hd Hw
         |uri strategy sqlDrv v vs w m r3 Hp Hc Hs Hd Hw Hv
         |uri strategy sqlDrv v vs w cg0 r3 res cg' r' Hp Hc Hs Hd Hw Hv Ho];
      cbn [snd rt set_rt].
    + by exists [].
    + destruct (cg_Open_events cg (rt s)) as (evs & Ht & Hall). rewrite Ho in Ht.
      by exists evs.
    + by exists [].
    + by exists [].
    + eexists [_]. split; [done|]. by repeat constructor.
    + apply parseValues_logs in Hv as (_ & _ & _ & _ & _ & evs & Ht & Hl).
      exists (evs ++ [EWatch name (Path uri) (URL_Query net uri)]).
      rewrite Ht. cbn. rewrite <- app_assoc. split; [done|].
      apply Forall_app. split; [by apply logs_are_open_events|by repeat constructor].
    + apply parseValues_logs in Hv as (_ & _ & _ & _ & _ & evs & Ht & Hl).
      destruct (cg_Open_events cg0 (emit (EGo name) r3)) as (evs2 & Ht2 & Hall2).
      rewrite Ho in Ht2. cbn in Ht2.
      exists (evs2 ++ EGo name :: evs ++ [EWatch name (Path uri) (URL_Query net uri)]).
      rewrite Ht2, Ht. cbn. rewrite <- !app_assoc. cbn. rewrite <- app_assoc.
      split; [done|].
      apply Forall_app. split; [done|]. constructor; [done|].
      apply Forall_app. split; [by apply logs_are_open_events|by repeat constructor].
Qed.

(** *** What a monitor is bound to *)

Lemma exec_keeps_binding o s name cg :
  cgroup s !! name = Some cg →
  ∃ cg', cgroup (exec net conn_Close o s) !! name = Some cg'
         ∧ values cg' = values cg ∧ parentCtx cg' = parentCtx cg
         ∧ sqlDriver cg' = sqlDriver cg ∧ forceKill cg' = forceKill cg.
Proof.
  intros Hl. destruct o as [n drv opts|n st|n|n v]; cbn [exec].
  - unfold RegisterSQLDriver. destruct drv as [d|]; [|by exists cg].
    destruct (sqlDrivers s !! n); [by exists cg|].
    destruct (apply_options _ opts); by exists cg.
  - unfold RegisterStrategy. destruct st as [st|]; [|by exists cg].
    destruct (strategies s !! n); by exists cg.
  - destruct (hdriver_Open_cases net n s)
      as [e Hp|uri cg1 res cg' r' Hp Hc Ho|uri Hp Hc Hs|uri strategy Hp Hc Hs Hd
         |uri strategy sqlDrv v vs e w Hp Hc Hs Hd Hw
         |uri strategy sqlDrv v vs w m r3 Hp Hc Hs Hd Hw Hv
         |uri strategy sqlDrv v vs w cg0 r3 res cg' r' Hp Hc Hs Hd Hw Hv Ho];
      cbn [snd cgroup set_rt set_cgroup]; try by exists cg.
    + destruct (decide (n = name)) as [->|Hne].
      * assert (cg1 = cg) as -> by congruence.
        apply cg_Open_quiet in Ho as ((_ & H1 & H2 & _ & H3 & H4 & _) & _).
        exists cg'. by rewrite lookup_insert_eq.
      * exists cg. by rewrite lookup_insert_ne.
    + destruct (decide (n = name)) as [->|Hne]; [congruence|].
      exists cg. by rewrite !lookup_insert_ne.
  - destruct (cgroup s !! n) as [cg1|] eqn:Hc; [|by exists cg].
    unfold run_step. destruct (decide (v = value cg1)) as [->|Hv].
    + cbn. rewrite insert_id by done. by exists cg.
    + rewrite valueChanged_eq. cbn [cgroup set_rt set_cgroup].
      destruct (decide (n = name)) as [->|Hne].
      * assert (cg1 = cg) as -> by congruence.
        rewrite lookup_insert_eq. by eexists.
      * exists cg. by rewrite lookup_insert_ne.
Qed.

(** X15.  Once an address has a monitor, it has one for good, and what
    the monitor was bound to when it was made never changes: its update
    channel, its parent scope, its driver entry with the options, and
    its [forceKill]; later registrations, opens and updates only change
    its value, its active scope and its outstanding connections. *)
Theorem monitor_binding_is_permanent ops s name cg :
  cgroup s !! name = Some cg →
  ∃ cg', cgroup (exec_all net conn_Close ops s) !! name = Some cg'
         ∧ values cg' = values cg ∧ parentCtx cg' = parentCtx cg
         ∧ sqlDriver cg' = sqlDriver cg ∧ forceKill cg' = forceKill cg.
Proof.
  revert s cg. induction ops as [|o ops IH]; intros s cg Hl; [by exists cg|].
  cbn. destruct (exec_keeps_binding o s name cg Hl) as (cg1 & Hl1 & E1 & E2 & E3 & E4).
  destruct (IH _ cg1 Hl1) as (cg' & Hl' & F1 & F2 & F3 & F4).
  exists cg'. split_and!; [done|congruence..].
Qed.

(** X16.  A registration that does not panic adds exactly its name to
    the listing: the new listing holds the name and the names that were
    listed, is one longer, and the other listing is the same. *)
Theorem registration_shows_in_listing name (d : @Driver World) opts s s' :
  RegisterSQLDriver name (Some d) opts s = Done s' →
  (∀ n, n ∈ SQLDrivers s' ↔ n = name ∨ n ∈ SQLDrivers s)
  ∧ length (SQLDrivers s') = S (length (SQLDrivers s))
  ∧ Strategies s' = Strategies s.
Proof.
  unfold RegisterSQLDriver. destruct (sqlDrivers s !! name) as [di|] eqn:Hl; [done|].
  destruct (apply_options _ opts) as [di|m]; [|done].
  intros [= <-]. split_and!; [| |done].
  - intros n.
    destruct (keys_listing (sqlDrivers s)) as (_ & _ & Hin & _).
    destruct (keys_listing (<[name := di]> (sqlDrivers s))) as (_ & _ & Hin' & _).
    unfold SQLDrivers. cbn [sqlDrivers set_sqlDrivers]. rewrite Hin', Hin.
    destruct (decide (n = name)) as [->|Hne].
    + rewrite lookup_insert_eq. split; [by left|by eexists].
    + rewrite lookup_insert_ne by done. split; [by right|]. by intros [?|?].
  - destruct (keys_listing (sqlDrivers s)) as (_ & _ & _ & Hlen).
    destruct (keys_listing (<[name := di]> (sqlDrivers s))) as (_ & _ & _ & Hlen').
    unfold SQLDrivers. cbn [sqlDrivers set_sqlDrivers]. rewrite Hlen', Hlen.
    by apply map_size_insert_None.
Qed.
End MoreProperties.

(** ** The further properties at concrete inputs *)

Lemma RegisterSQLDriver_options_witness :
  ∃ s' di,
    RegisterSQLDriver "d" (Some Demo.drv_ok)
      (WithDriverOptions <$> [{["sslmode"%string := "require"%string]};
                              {["sslmode"%string := "disable"%string]}])
      (init_state 0) = Done s'
    ∧ sqlDrivers s' !! "d"%string = Some di
    ∧ options di !! "sslmode"%string = Some "disable"%string.
Proof.
  destruct (RegisterSQLDriver_options "d" Demo.drv_ok
              [{["sslmode"%string := "require"%string]};
               {["sslmode"%string := "disable"%string]}] (init_state 0))
    as (s' & di & Hr & Hl & _ & Hk).
  - vm_compute; reflexivity.
  - exists s', di. split_and!; [done|done|]. rewrite Hk. vm_compute; reflexivity.
Defined.

Lemma merge_overrides_witness :
  ∃ merged : Values,
    mergeConnectionStringOptions GoURL.net "postgres://h/db?sslmode=require&x=1"
      {["sslmode"%string := "disable"%string]}
    = (URL_String GoURL.net
         (set_RawQuery (Values_Encode GoURL.net merged)
            (mkURL "postgres" "" "" "h" "/db" "sslmode=require&x=1" "")), None)
    ∧ merged !! "sslmode"%string = Some ["disable"%string]
    ∧ merged !! "x"%string = Some ["1"%string].
Proof.
  destruct (merge_overrides GoURL.net "postgres://h/db?sslmode=require&x=1"
              {["sslmode"%string := "disable"%string]}
              (mkURL "postgres" "" "" "h" "/db" "sslmode=require&x=1" "")
              (GoURL.ParseQuery "sslmode=require&x=1").1)
    as (merged & Hm & Hk).
  - vm_compute. discriminate.
  - vm_compute; reflexivity.
  - vm_compute; reflexivity.
  - exists merged. split_and!; [done| |]; rewrite Hk; vm_compute; reflexivity.
Defined.

Lemma hdriver_Open_unregistered_witness :
  hdriver_Open GoURL.net "strat://d/path" (init_state 0)
  = (Done (None, Some ErrUnsupportedStrategy), init_state 0).
Proof.
  refine (proj1 (hdriver_Open_unregistered GoURL.net "strat://d/path"
                   (mkURL "strat" "" "" "d" "/path" "" "") (init_state 0) _ _) _);
    vm_compute; reflexivity.
Defined.

Lemma Open_then_remove_witness :
  remove 3 (cg_Open GoURL.net (Demo.cg3 false) Demo.rt3).1.2 = Demo.cg3 false.
Proof.
  refine (proj2 (proj2 (proj2 (proj2
    (Open_then_remove GoURL.net (Demo.cg3 false) Demo.rt3 3 _ _))))).
  - repeat constructor.
  - vm_compute; reflexivity.
Defined.


Lemma update_leaves_other_monitors_witness :
  let s := exec_all GoURL.net Demo.close_failing Demo.two_addresses (init_state 0) in
  conns <$> cgroup (exec GoURL.net Demo.close_failing
                      (OpUpdate "strat://d/a" "host=b") s) !! "strat://d/b"%string
  = Some [1]
  ∧ mconns (rt (exec GoURL.net Demo.close_failing
                  (OpUpdate "strat://d/a" "host=b") s)) !! 1
    = mconns (rt s) !! 1.
Proof.
  intros s.
  destruct (update_leaves_other_monitors GoURL.net Demo.close_failing 0
              Demo.two_addresses "strat://d/a" "host=b" "strat://d/b"
              (mkChanGroup "host=a" 7 0 2 (mkDriverInstance Demo.drv_ok ∅) false [1]))
    as (Hcg & Hh).
  - discriminate.
  - vm_compute; reflexivity.
  - split.
    + fold s in Hcg. by rewrite Hcg.
    + apply Hh. cbn. by left.
Defined.

Lemma wrappers_only_gain_the_flag_witness :
  ∃ mc', mconns (rt (exec_all GoURL.net Demo.close_failing
                       [OpUpdate "strat://d/a" "host=b"; OpOpen "strat://d/a"]
                       (exec_all GoURL.net Demo.close_failing Demo.two_addresses
                          (init_state 0)))) !! 0 = Some mc'
         ∧ mc_conn mc' = 0 ∧ mc_ctx mc' = 1.
Proof.
  destruct (wrappers_only_gain_the_flag GoURL.net Demo.close_failing
              [OpUpdate "strat://d/a" "host=b"; OpOpen "strat://d/a"]
              (exec_all GoURL.net Demo.close_failing Demo.two_addresses (init_state 0))
              0 (mkManagedConn 1 0 false))
    as (mc' & Hl & Hc & Hx & _).
  - vm_compute; reflexivity.
  - exists mc'. by split_and!.
Defined.

Lemma monitor_binding_is_permanent_witness :
  ∃ cg', cgroup (exec_all GoURL.net Demo.close_failing
                   [OpUpdate "strat://d/a" "host=b";
                    OpRegisterSQLDriver "e" (Some Demo.drv_down) []]
                   (exec_all GoURL.net Demo.close_failing Demo.two_addresses
                      (init_state 0))) !! "strat://d/a"%string = Some cg'
         ∧ values cg' = 7 ∧ forceKill cg' = false.
Proof.
  destruct (monitor_binding_is_permanent GoURL.net Demo.close_failing
              [OpUpdate "strat://d/a" "host=b";
               OpRegisterSQLDriver "e" (Some Demo.drv_down) []]
              (exec_all GoURL.net Demo.close_failing Demo.two_addresses (init_state 0))
              "strat://d/a"
              (mkChanGroup "host=a" 7 0 1 (mkDriverInstance Demo.drv_ok ∅) false [0]))
    as (cg' & Hl & Hv & _ & _ & Hf).
  - vm_compute; reflexivity.
  - exists cg'. by split_and!.
Defined.

Lemma registration_shows_in_listing_witness :
  ∃ s', RegisterSQLDriver "d" (Some Demo.drv_ok) [] (init_state 0) = Done s'
        ∧ length (SQLDrivers s') = 1.
Proof.
  eexists. split; [vm_compute; reflexivity|].
  refine (proj1 (proj2
    (registration_shows_in_listing "d" Demo.drv_ok [] (init_state 0) _ _))).
  vm_compute; reflexivity.
Defined.
